(** * ip17mon: an in-memory IPv4 location database (Go package [ip17mon])

    A shallow embedding of [ip17mon.go]: the decoder [Locator.init], the
    lookup [Locator.FindByUint] with its binary search
    [Locator.findIndexOffset], the record parser [newLocationInfo], and the
    package-level registry ([std], [olddata], [newdata]) with [Init],
    [InitWithData] and [Reload].

    Conventions.
    - Go's [int] is taken to be 64 bits wide (two's complement); [uint32]
      and [uint64] wrap modulo [2^32] and [2^64].  Every [int] addition,
      subtraction and multiplication of the source goes through [int].
    - A Go function either returns or panics: [outcome].  Functions that
      also touch the package-level variables live in the state monad [M].
    - A [[]byte] is a [slice]: a backing array seen from the slice's first
      element, and a length; the capacity is the length of the backing
      array.  The arrays built by [make] in [Locator.init] are only ever
      indexed, never re-sliced, so they are plain lists with checked access.
    - [switchMutex] only orders concurrent callers; the embedding is
      sequential and leaves it out. *)

From Stdlib Require Import String Ascii Strings.Byte.
From Stdlib Require Import ZArith List Bool Lia.
Import ListNotations.

Local Open Scope Z_scope.

(** ** Go runtime: panics and results *)

Inductive panic : Type :=
| IndexOutOfRange (i n : Z)        (* index out of range [i] with length n *)
| SliceBoundsOutOfRange            (* slice bounds out of range *)
| MakesliceLenOutOfRange           (* makeslice: len out of range *)
| NilPointerDereference            (* invalid memory address or nil pointer dereference *)
| PanicString (msg : string).      (* panic("...") *)

Inductive outcome (A : Type) : Type :=
| Ret (a : A)
| Panic (p : panic).

Arguments Ret {A} a.
Arguments Panic {A} p.

Definition obind {A B : Type} (o : outcome A) (k : A -> outcome B) : outcome B :=
  match o with
  | Ret a => k a
  | Panic p => Panic p
  end.

Declare Scope go_scope.
Delimit Scope go_scope with go.
Notation "x <- c ;; k" := (obind c (fun x => k))
  (at level 61, c at next level, right associativity) : go_scope.
Notation "c ;;; k" := (obind c (fun _ => k))
  (at level 61, right associativity) : go_scope.
Local Open Scope go_scope.

Definition returns {A : Type} (o : outcome A) : Prop := exists a, o = Ret a.
Definition panics {A : Type} (o : outcome A) : Prop := exists p, o = Panic p.

(** ** Machine integers *)

Definition int (z : Z) : Z := (z + 2 ^ 63) mod 2 ^ 64 - 2 ^ 63.
Definition uint32 (z : Z) : Z := z mod 2 ^ 32.
Definition uint64 (z : Z) : Z := z mod 2 ^ 64.

Definition byte_val (b : byte) : Z := Z.of_N (Byte.to_N b).

(** ** Slices *)

Record slice (A : Type) : Type := mkSlice {
  backing : list A;
  slen : nat
}.

Arguments mkSlice {A} backing slen.
Arguments backing {A} s.
Arguments slen {A} s.

Section Slices.
Context {A : Type}.

Definition len (s : slice A) : Z := Z.of_nat (slen s).
Definition cap (s : slice A) : Z := Z.of_nat (length (backing s)).

(** The invariant of every slice value: [len(s) <= cap(s)]. *)
Definition slice_wf (s : slice A) : Prop := (slen s <= length (backing s))%nat.

(** The elements [s[0], ..., s[len(s)-1]]. *)
Definition elems (s : slice A) : list A := firstn (slen s) (backing s).

(** A slice literal or a freshly read buffer without spare capacity. *)
Definition slice_of (l : list A) : slice A := mkSlice l (length l).

Definition nil_slice : slice A := mkSlice [] 0.

(** [s[i]]: checked against the length. *)
Definition at_ (s : slice A) (i : Z) : outcome A :=
  if (0 <=? i) && (i <? len s) then
    match nth_error (backing s) (Z.to_nat i) with
    | Some a => Ret a
    | None => Panic (IndexOutOfRange i (len s))
    end
  else Panic (IndexOutOfRange i (len s)).

(** [s[lo:hi]]: checked against the capacity. *)
Definition reslice (s : slice A) (lo hi : Z) : outcome (slice A) :=
  if (0 <=? lo) && (lo <=? hi) && (hi <=? cap s) then
    Ret (mkSlice (skipn (Z.to_nat lo) (backing s)) (Z.to_nat (hi - lo)))
  else Panic SliceBoundsOutOfRange.

(** [s[lo:]] is [s[lo:len(s)]]. *)
Definition reslice_from (s : slice A) (lo : Z) : outcome (slice A) :=
  reslice s lo (len s).

(** [s[:hi]] is [s[0:hi]]. *)
Definition reslice_to (s : slice A) (hi : Z) : outcome (slice A) :=
  reslice s 0 hi.

(** [l[i]] for an array built by [make]: length and capacity coincide. *)
Definition idx (l : list A) (i : Z) : outcome A :=
  if (0 <=? i) && (i <? Z.of_nat (length l)) then
    match nth_error l (Z.to_nat i) with
    | Some a => Ret a
    | None => Panic (IndexOutOfRange i (Z.of_nat (length l)))
    end
  else Panic (IndexOutOfRange i (Z.of_nat (length l))).

Fixpoint set_nth (l : list A) (n : nat) (a : A) : list A :=
  match l, n with
  | [], _ => []
  | _ :: l', O => a :: l'
  | x :: l', S n' => x :: set_nth l' n' a
  end.

(** [l[i] = a]. *)
Definition store (l : list A) (i : Z) (a : A) : outcome (list A) :=
  if (0 <=? i) && (i <? Z.of_nat (length l)) then Ret (set_nth l (Z.to_nat i) a)
  else Panic (IndexOutOfRange i (Z.of_nat (length l))).

(** [make([]T, n)] with the zero value [z]. *)
Definition make (z : A) (n : Z) : outcome (list A) :=
  if n <? 0 then Panic MakesliceLenOutOfRange else Ret (repeat z (Z.to_nat n)).
End Slices.

(** [for i := 0; i < n; i++ { body }], the body neither changing [i] nor
    [n]; [st] is what the body updates. *)
Fixpoint for_from {St : Type} (k : nat) (i : Z) (body : Z -> St -> outcome St) (st : St)
  : outcome St :=
  match k with
  | O => Ret st
  | S k' => st' <- body i st ;; for_from k' (int (i + 1)) body st'
  end.

Definition for_upto {St : Type} (n : Z) (body : Z -> St -> outcome St) (st : St)
  : outcome St :=
  for_from (Z.to_nat n) 0 body st.

(** ** Library functions the package calls *)

(** Four bytes as one 32-bit number, the first byte the most significant. *)
Definition be_combine (b0 b1 b2 b3 : byte) : Z :=
  Z.lor (Z.lor (Z.lor (byte_val b3) (Z.shiftl (byte_val b2) 8))
               (Z.shiftl (byte_val b1) 16))
        (Z.shiftl (byte_val b0) 24).

(** The same, the first byte the least significant. *)
Definition le_combine (b0 b1 b2 b3 : byte) : Z :=
  Z.lor (Z.lor (Z.lor (byte_val b0) (Z.shiftl (byte_val b1) 8))
               (Z.shiftl (byte_val b2) 16))
        (Z.shiftl (byte_val b3) 24).

(** [binary.BigEndian.Uint32(b)]; its first statement is the bounds-check
    hint [_ = b[3]]. *)
Definition BigEndian_Uint32 (b : slice byte) : outcome Z :=
  b3 <- at_ b 3 ;;
  b2 <- at_ b 2 ;;
  b1 <- at_ b 1 ;;
  b0 <- at_ b 0 ;;
  Ret (be_combine b0 b1 b2 b3).

(** [binary.LittleEndian.Uint32(b)]. *)
Definition LittleEndian_Uint32 (b : slice byte) : outcome Z :=
  b3 <- at_ b 3 ;;
  b0 <- at_ b 0 ;;
  b1 <- at_ b 1 ;;
  b2 <- at_ b 2 ;;
  Ret (le_combine b0 b1 b2 b3).

Definition TAB : byte := x09.

(** [bytes.Split(s, sep)] for a one-byte separator, as in the package's only
    call [bytes.Split(str, []byte("\t"))]: the pieces between the
    separators, one more than there are separators. *)
Fixpoint bytes_Split (s : list byte) (sep : byte) : list (list byte) :=
  match s with
  | [] => [[]]
  | c :: s' =>
      if Byte.eqb c sep then [] :: bytes_Split s' sep
      else match bytes_Split s' sep with
           | f :: fs => (c :: f) :: fs
           | [] => [[c]]
           end
  end.

(** *** [strconv]

    [strconv] belongs to Go's library.  Its documentation: [ParseUint] and
    [ParseInt] return the number and a nil error, or an error whose [Err] is
    [ErrSyntax] when the text is empty or holds a byte that is no digit (the
    value returned is then 0), or [ErrRange] when the number does not fit the
    size (the value returned is then the largest number of that size and
    sign).  [ParseInt] accepts a leading [+] or [-], [ParseUint] does not.
    The package always asks for base 10 and 64 bits. *)
Inductive NumError : Type := ErrSyntax | ErrRange.

Definition maxUint64 : Z := 2 ^ 64 - 1.

(** The digit loop of [strconv.ParseUint(s, 10, 64)]: a byte that is not a
    decimal digit is a syntax error with value 0; an overflow is a range
    error with the largest value. *)
Fixpoint ParseUint_digits (cs : list byte) (n : Z) : Z * option NumError :=
  match cs with
  | [] => (n, None)
  | c :: cs' =>
      let v := byte_val c in
      if (48 <=? v) && (v <=? 57) then
        let d := v - 48 in
        if n >=? maxUint64 / 10 + 1 then (maxUint64, Some ErrRange)
        else
          let n10 := uint64 (n * 10) in
          let n1 := uint64 (n10 + d) in
          if (n1 <? n10) || (n1 >? maxUint64) then (maxUint64, Some ErrRange)
          else ParseUint_digits cs' n1
      else (0, Some ErrSyntax)
  end.

(** [strconv.ParseUint(s, 10, 64)]. *)
Definition ParseUint (s : string) : Z * option NumError :=
  match s with
  | EmptyString => (0, Some ErrSyntax)
  | _ => ParseUint_digits (list_byte_of_string s) 0
  end.

(** [strconv.ParseInt(s, 10, 64)]: an optional sign, then [ParseUint]; a
    syntax error gives 0, a value out of range gives the nearest bound. *)
Definition ParseInt (s : string) : Z * option NumError :=
  match s with
  | EmptyString => (0, Some ErrSyntax)
  | String c s' =>
      let neg := Ascii.eqb c "-" in
      let rest := if Ascii.eqb c "+" || neg then s' else s in
      let '(un, err) := ParseUint rest in
      match err with
      | Some ErrSyntax => (0, Some ErrSyntax)
      | _ =>
          let cutoff := 2 ^ 63 in
          if negb neg && (un >=? cutoff) then (cutoff - 1, Some ErrRange)
          else if neg && (un >? cutoff) then (- cutoff, Some ErrRange)
          else (if neg then - un else un, None)
      end
  end.

(** ['0'..'9']. *)
Definition is_digit (c : byte) : bool := (48 <=? byte_val c) && (byte_val c <=? 57).

(** The number a run of decimal digits denotes, continuing from [n]. *)
Definition decimal_value (cs : list byte) (n : Z) : Z :=
  fold_left (fun acc c => acc * 10 + (byte_val c - 48)) cs n.

(** What the package makes of a numeric subfield [s] when it drops the
    error of [strconv.ParseInt]: the value [v] returned next to it. *)
Definition lenient_signed (s : string) (v : Z) : Prop :=
  v = fst (ParseInt s)
  /\ (snd (ParseInt s) = Some ErrSyntax -> v = 0)
  /\ (snd (ParseInt s) = Some ErrRange -> v = 2 ^ 63 - 1 \/ v = - 2 ^ 63).

(** The same for [strconv.ParseUint]. *)
Definition lenient_unsigned (s : string) (v : Z) : Prop :=
  v = fst (ParseUint s)
  /\ (snd (ParseUint s) = Some ErrSyntax -> v = 0)
  /\ (snd (ParseUint s) = Some ErrRange -> v = maxUint64).

(** ** The record parser *)

Definition Null : string := "N/A".

Record LocationInfo : Type := mkLocationInfo {
  Country : string;
  Region : string;
  City : string;
  Isp : string;
  Country_id : Z;
  Province_id : Z;
  City_id : Z;
  Isp_id : Z;
  Location_id : Z
}.

(** [string(fields[i])]; the index is within the length the [switch] has
    just matched. *)
Definition field (fields : list (list byte)) (i : nat) : string :=
  string_of_list_byte (nth i fields []).

(** [if len(s) == 0 { s = Null }]. *)
Definition or_Null (s : string) : string :=
  if (String.length s =? 0)%nat then Null else s.

Definition newLocationInfo (str : list byte) : outcome LocationInfo :=
  let fields := bytes_Split str TAB in
  info <-
    match length fields with
    | 4%nat =>
        Ret (mkLocationInfo (field fields 0) (field fields 1) (field fields 2)
               EmptyString 0 0 0 0 0)
    | 5%nat =>
        Ret (mkLocationInfo (field fields 0) (field fields 1) (field fields 2)
               (field fields 4) 0 0 0 0 0)
    | 10%nat =>
        let IntCountry_id := fst (ParseInt (field fields 4)) in
        let IntProvince_id := fst (ParseInt (field fields 5)) in
        let IntCity_id := fst (ParseInt (field fields 6)) in
        let IntIsp_id := fst (ParseInt (field fields 7)) in
        let IntLocation_id := fst (ParseUint (field fields 8)) in
        Ret (mkLocationInfo (field fields 0) (field fields 1) (field fields 2)
               (field fields 3)
               IntCountry_id IntProvince_id IntCity_id IntIsp_id IntLocation_id)
    | _ =>
        Panic (PanicString (String.append "unexpected ip info:" (string_of_list_byte str)))
    end ;;
  Ret (mkLocationInfo
         (or_Null (Country info)) (or_Null (Region info))
         (or_Null (City info)) (or_Null (Isp info))
         (Country_id info) (Province_id info) (City_id info) (Isp_id info)
         (Location_id info)).

(** [bytes.Join(fs, sep)] for a one-byte separator; used to write records
    down. *)
Fixpoint bytes_Join (fs : list (list byte)) (sep : byte) : list byte :=
  match fs with
  | [] => []
  | [f] => f
  | f :: fs' => f ++ sep :: bytes_Join fs' sep
  end.

Definition sep_free (sep : byte) (f : list byte) : bool :=
  forallb (fun c => negb (Byte.eqb c sep)) f.

(** A record given by its fields as text. *)
Definition tsv (fs : list string) : list byte :=
  bytes_Join (map list_byte_of_string fs) TAB.

(** ** The Locator *)

Notation "a +i b" := (int (a + b)) (at level 50, left associativity) : Z_scope.
Notation "a -i b" := (int (a - b)) (at level 50, left associativity) : Z_scope.
Notation "a *i b" := (int (a * b)) (at level 40, left associativity) : Z_scope.

Record Locator : Type := mkLocator {
  textData : slice byte;
  indexData1 : list Z;
  indexData2 : list Z;
  indexData3 : list Z;
  index : list Z
}.

(** [new(Locator)]: every field nil. *)
Definition zero_Locator : Locator := mkLocator nil_slice [] [] [] [].

Definition with_textData (loc : Locator) (v : slice byte) : Locator :=
  mkLocator v (indexData1 loc) (indexData2 loc) (indexData3 loc) (index loc).
Definition with_indexData1 (loc : Locator) (v : list Z) : Locator :=
  mkLocator (textData loc) v (indexData2 loc) (indexData3 loc) (index loc).
Definition with_indexData2 (loc : Locator) (v : list Z) : Locator :=
  mkLocator (textData loc) (indexData1 loc) v (indexData3 loc) (index loc).
Definition with_indexData3 (loc : Locator) (v : list Z) : Locator :=
  mkLocator (textData loc) (indexData1 loc) (indexData2 loc) v (index loc).
Definition with_index (loc : Locator) (v : list Z) : Locator :=
  mkLocator (textData loc) (indexData1 loc) (indexData2 loc) (indexData3 loc) v.

(** The body of the first loop of [init]. *)
Definition init_index_body (data : slice byte) (i : Z) (loc : Locator) : outcome Locator :=
  let off := 4 +i i *i 4 in
  s <- reslice data off (off +i 4) ;;
  v <- LittleEndian_Uint32 s ;;
  ix <- store (index loc) i v ;;
  Ret (with_index loc ix).

(** The body of the second loop of [init]. *)
Definition init_record_body (data : slice byte) (i : Z) (loc : Locator) : outcome Locator :=
  let off := 4 +i 1024 +i i *i 8 in
  s <- reslice data off (off +i 4) ;;
  v1 <- BigEndian_Uint32 s ;;
  d1 <- store (indexData1 loc) i v1 ;;
  let loc := with_indexData1 loc d1 in
  b4 <- at_ data (off +i 4) ;;
  b5 <- at_ data (off +i 5) ;;
  b6 <- at_ data (off +i 6) ;;
  d2 <- store (indexData2 loc) i
          (Z.lor (Z.lor (byte_val b4) (uint32 (Z.shiftl (byte_val b5) 8)))
                 (uint32 (Z.shiftl (byte_val b6) 16))) ;;
  let loc := with_indexData2 loc d2 in
  b7 <- at_ data (off +i 7) ;;
  d3 <- store (indexData3 loc) i (byte_val b7) ;;
  Ret (with_indexData3 loc d3).

(** [func (loc *Locator) init(data []byte)], on the value [loc] points to. *)
Definition init (loc : Locator) (data : slice byte) : outcome Locator :=
  b <- reslice_to data 4 ;;
  u <- BigEndian_Uint32 b ;;
  let textoff := u in
  t <- reslice_from data (textoff -i 1024) ;;
  let loc := with_textData loc t in
  ix <- make 0 256 ;;
  let loc := with_index loc ix in
  loc <- for_upto 256 (init_index_body data) loc ;;
  let nidx := Z.quot (textoff -i 4 -i 1024 -i 1024) 8 in
  d1 <- make 0 nidx ;;
  let loc := with_indexData1 loc d1 in
  d2 <- make 0 nidx ;;
  let loc := with_indexData2 loc d2 in
  d3 <- make 0 nidx ;;
  let loc := with_indexData3 loc d3 in
  for_upto nidx (init_record_body data) loc.

(** The number in the first four bytes of the buffer, which [init] takes for
    [textoff]. *)
Definition header_textoff (data : slice byte) : Z :=
  be_combine (nth 0 (backing data) x00) (nth 1 (backing data) x00)
             (nth 2 (backing data) x00) (nth 3 (backing data) x00).

(** The buffers [init] accepts: room for the length word and the prefix
    index, and a [textoff] that leaves [N >= 0] and a text start within the
    buffer. *)
Definition decodable (data : slice byte) : Prop :=
  1028 <= cap data /\ 2045 <= header_textoff data <= len data + 1024.

(** The loop of [findIndexOffset]; [None] when [fuel] iterations were not
    enough to leave it. *)
Fixpoint findIndexOffset_loop (fuel : nat) (loc : Locator) (ip start end_ : Z)
  : option (outcome (Z * Z)) :=
  if start <? end_ then
    match fuel with
    | O => None
    | S fuel' =>
        let mid := Z.quot (start +i end_) 2 in
        match idx (indexData1 loc) mid with
        | Panic p => Some (Panic p)
        | Ret v =>
            if ip >? v then findIndexOffset_loop fuel' loc ip (mid +i 1) end_
            else findIndexOffset_loop fuel' loc ip start mid
        end
    end
  else Some (Ret (start, end_)).

(** [func (loc *Locator) findIndexOffset(ip uint32, start, end int) int]. *)
Definition findIndexOffset (fuel : nat) (loc : Locator) (ip start end_ : Z)
  : option (outcome Z) :=
  match findIndexOffset_loop fuel loc ip start end_ with
  | None => None
  | Some (Panic p) => Some (Panic p)
  | Some (Ret (start', end')) =>
      Some (v <- idx (indexData1 loc) end' ;;
            if v >=? ip then Ret end' else Ret start')
  end.

(** [l[i]] where the index is known to be in range. *)
Definition elt (l : list Z) (i : Z) : Z := nth (Z.to_nat i) l 0.

(** Non-decreasing. *)
Fixpoint is_sorted (l : list Z) : bool :=
  match l with
  | a :: (b :: _) as t => (a <=? b) && is_sorted t
  | _ => true
  end.

(** [i] is the greatest index of [start..end_] whose entry is at most [ip]. *)
Definition greatest_le (rs : list Z) (ip start end_ i : Z) : Prop :=
  start <= i <= end_ /\ elt rs i <= ip /\ forall j, i < j <= end_ -> ip < elt rs j.

(** [i] is the least index of [start..end_] whose entry is at least [ip],
    and [end_] when there is none. *)
Definition least_ge (rs : list Z) (ip start end_ i : Z) : Prop :=
  start <= i <= end_
  /\ (forall j, start <= j < i -> elt rs j < ip)
  /\ (i < end_ -> ip <= elt rs i).

(** The bounds [FindByUint] hands to the search: [(loc.index[ip>>24], end)]. *)
Definition search_bounds (loc : Locator) (ip : Z) : outcome (Z * Z) :=
  let end_ := Z.of_nat (length (indexData1 loc)) -i 1 in
  end_ <- (if negb (Z.shiftr ip 24 =? 255) then
             idx (index loc) (uint32 (Z.shiftr ip 24 + 1))
           else Ret end_) ;;
  start <- idx (index loc) (Z.shiftr ip 24) ;;
  Ret (start, end_).

(** [func (loc *Locator) FindByUint(ip uint32) *LocationInfo]; a nil
    receiver is [None]. *)
Definition Locator_FindByUint (fuel : nat) (loc : option Locator) (ip : Z)
  : option (outcome LocationInfo) :=
  match loc with
  | None => Some (Panic NilPointerDereference)
  | Some loc =>
      match search_bounds loc ip with
      | Panic p => Some (Panic p)
      | Ret (start, end_) =>
          match findIndexOffset fuel loc ip start end_ with
          | None => None
          | Some r =>
              Some (i <- r ;;
                    off <- idx (indexData2 loc) i ;;
                    n <- idx (indexData3 loc) i ;;
                    s <- reslice (textData loc) off (off +i n) ;;
                    newLocationInfo (elems s))
          end
      end
  end.

Definition uint32_range (v : Z) : Prop := 0 <= v < 2 ^ 32.

(** The shape [init] gives every Locator: 256 prefix entries and the range
    bounds, all of them [uint32] values, and three arrays of one length,
    fewer than [2^29] entries each.  Whether the bounds are sorted and the
    offsets lie within the text is up to the file. *)
Definition Locator_wf (loc : Locator) : Prop :=
  length (index loc) = 256%nat
  /\ Forall uint32_range (index loc)
  /\ Forall uint32_range (indexData1 loc)
  /\ length (indexData2 loc) = length (indexData1 loc)
  /\ length (indexData3 loc) = length (indexData1 loc)
  /\ Z.of_nat (length (indexData1 loc)) < 2 ^ 29
  /\ slice_wf (textData loc).

(** [net.IP]: a byte slice, [None] for nil. *)
Definition IP : Type := option (slice byte).

(** [[]byte(ip)]. *)
Definition bytes_of_IP (ip : IP) : slice byte :=
  match ip with
  | Some s => s
  | None => nil_slice
  end.

(** [func (ip IP) To4() IP]: a 4-byte address is itself, a 16-byte address
    with the IPv4-in-IPv6 prefix is its last four bytes, anything else is
    nil. *)
Definition To4 (ip : slice byte) : IP :=
  if len ip =? 4 then Some ip
  else if (len ip =? 16)
          && forallb (fun b => byte_val b =? 0) (firstn 10 (elems ip))
          && (byte_val (nth 10 (elems ip) x00) =? 255)
          && (byte_val (nth 11 (elems ip) x00) =? 255)
       then Some (mkSlice (skipn 12 (backing ip)) 4)
       else None.

Inductive error : Type :=
| ErrInvalidIp                  (* errors.New("invalid ip format") *)
| ErrOS (msg : string).         (* whatever ioutil.ReadFile reports *)

Section Package.
(** [net.ParseIP] and [ioutil.ReadFile] belong to Go's library and to the
    file system the process runs on. *)
Variable ParseIP : string -> IP.
Variable ReadFile : string -> slice byte * option error.

(** [func (loc *Locator) Find(ipstr string) (info *LocationInfo, err error)]. *)
Definition Locator_Find (fuel : nat) (loc : option Locator) (ipstr : string)
  : option (outcome (option LocationInfo * option error)) :=
  match ParseIP ipstr with
  | None => Some (Ret (None, Some ErrInvalidIp))
  | Some ip =>
      match BigEndian_Uint32 (bytes_of_IP (To4 ip)) with
      | Panic p => Some (Panic p)
      | Ret u =>
          match Locator_FindByUint fuel loc u with
          | None => None
          | Some r => Some (info <- r ;; Ret (Some info, None))
          end
      end
  end.

(** *** The package-level variables

    [std], [olddata] and [newdata] are pointers; [heap] holds what they
    point to, and [new(Locator)] takes the next free address. *)
Record registry : Type := mkRegistry {
  heap : list Locator;
  std : option nat;
  olddata : option nat;
  newdata : option nat
}.

Definition empty_registry : registry := mkRegistry [] None None None.

Definition deref (r : registry) (p : option nat) : option Locator :=
  match p with
  | Some a => nth_error (heap r) a
  | None => None
  end.

(** Code that reads and writes the package-level variables: the result, or
    the panic, together with the variables as they are at that moment. *)
Definition M (A : Type) : Type := registry -> outcome A * registry.

Definition mret {A : Type} (a : A) : M A := fun r => (Ret a, r).
Definition mbind {A B : Type} (m : M A) (k : A -> M B) : M B :=
  fun r => match m r with
           | (Ret a, r') => k a r'
           | (Panic p, r') => (Panic p, r')
           end.

Definition with_heap (r : registry) (h : list Locator) : registry :=
  mkRegistry h (std r) (olddata r) (newdata r).

(** [func NewLocatorWithData(data []byte) (loc *Locator)].  When [init]
    panics the new Locator is left behind with nothing pointing to it. *)
Definition NewLocatorWithData (data : slice byte) : M nat :=
  fun r =>
    let loc := length (heap r) in
    match init zero_Locator data with
    | Panic p => (Panic p, with_heap r (heap r ++ [zero_Locator]))
    | Ret l => (Ret loc, with_heap r (heap r ++ [l]))
    end.

(** [func NewLocator(dataFile string) (loc *Locator, err error)]. *)
Definition NewLocator (dataFile : string) : M (option nat * option error) :=
  let '(data, err) := ReadFile dataFile in
  match err with
  | Some e => mret (None, Some e)
  | None => mbind (NewLocatorWithData data) (fun loc => mret (Some loc, None))
  end.

Definition set_std (p : option nat) : M unit :=
  fun r => (Ret tt, mkRegistry (heap r) p (olddata r) (newdata r)).
Definition set_olddata (p : option nat) : M unit :=
  fun r => (Ret tt, mkRegistry (heap r) (std r) p (newdata r)).
Definition set_old_new (o n : option nat) : M unit :=
  fun r => (Ret tt, mkRegistry (heap r) (std r) o n).
Definition get {A : Type} (f : registry -> A) : M A := fun r => (Ret (f r), r).

(** [func Init(dataFile string) (err error)]. *)
Definition Init (dataFile : string) : M (option error) :=
  mbind (get std) (fun s =>
  match s with
  | Some _ => mret None
  | None =>
      mbind (NewLocator dataFile) (fun '(loc, err) =>
      mbind (set_std loc) (fun _ =>
      match err with
      | None => mbind (get std) (fun s => mbind (set_old_new s s) (fun _ => mret err))
      | Some _ => mret err
      end))
  end).

(** [func Reload(dataFile string) (err error)]. *)
Definition Reload (dataFile : string) : M (option error) :=
  mbind (NewLocator dataFile) (fun '(loc, err) =>
  mbind (set_olddata loc) (fun _ =>
  mbind (get olddata) (fun o =>
  mbind (get newdata) (fun n =>
  mbind (set_old_new n o) (fun _ =>
  mbind (get newdata) (fun n' =>
  mbind (set_std n') (fun _ =>
  mret err))))))).

(** [func InitWithData(data []byte)]. *)
Definition InitWithData (data : slice byte) : M unit :=
  mbind (get std) (fun s =>
  match s with
  | Some _ => mret tt
  | None => mbind (NewLocatorWithData data) (fun loc => set_std (Some loc))
  end).

(** [func Find(ipstr string)], which is [std.Find(ipstr)]. *)
Definition Find (fuel : nat) (r : registry) (ipstr : string)
  : option (outcome (option LocationInfo * option error)) :=
  Locator_Find fuel (deref r (std r)) ipstr.

(** [func FindByUint(ip uint32)], which is [std.FindByUint(ip)]. *)
Definition FindByUint (fuel : nat) (r : registry) (ip : Z)
  : option (outcome LocationInfo) :=
  Locator_FindByUint fuel (deref r (std r)) ip.

(** One call of the package's three functions that write the registry. *)
Inductive registry_step : registry -> registry -> Prop :=
| step_Init (dataFile : string) (r : registry) :
    registry_step r (snd (Init dataFile r))
| step_Reload (dataFile : string) (r : registry) :
    registry_step r (snd (Reload dataFile r))
| step_InitWithData (data : slice byte) (r : registry) :
    registry_step r (snd (InitWithData data r)).

(** The registries a process can be in. *)
Inductive reachable : registry -> Prop :=
| reachable_start : reachable empty_registry
| reachable_step (r r' : registry) :
    reachable r -> registry_step r r' -> reachable r'.

(** The Locators the registry points to. *)
Definition referenced (r : registry) (p : nat) : Prop :=
  std r = Some p \/ olddata r = Some p \/ newdata r = Some p.
End Package.

(** ** Sample data *)

Definition byte_of (z : Z) : byte :=
  match Byte.of_N (Z.to_N (z mod 256)) with
  | Some b => b
  | None => x00
  end.

Definition be32 (z : Z) : list byte :=
  [byte_of (Z.shiftr z 24); byte_of (Z.shiftr z 16); byte_of (Z.shiftr z 8); byte_of z].

Definition le32 (z : Z) : list byte :=
  [byte_of z; byte_of (Z.shiftr z 8); byte_of (Z.shiftr z 16); byte_of (Z.shiftr z 24)].

(** One 8-byte index record: range bound, 24-bit offset, length. *)
Definition rec8 (ip off n : Z) : list byte :=
  be32 ip ++ [byte_of off; byte_of (Z.shiftr off 8); byte_of (Z.shiftr off 16); byte_of n].

Definition sample_text : list byte :=
  tsv ["US"; "CA"; "Los Angeles"; ""]%string
  ++ tsv ["CN"; ""; ""; "ChinaNet"; "1"; "2"; "3"; "4"; "5"; ""]%string
  ++ tsv ["a"; "b"]%string.

(** A database of three ranges: up to 1.0.0.255, up to 1.0.1.255 and up to
    255.255.255.255; the third record has two fields only. *)
Definition sample_db : list byte :=
  be32 (2052 + 24)
  ++ le32 0 ++ le32 0 ++ concat (repeat (le32 2) 254)
  ++ rec8 (1 * 2 ^ 24 + 255) 0 18 ++ rec8 (1 * 2 ^ 24 + 511) 18 24 ++ rec8 (2 ^ 32 - 1) 42 3
  ++ sample_text.

Definition sample_Locator : Locator :=
  mkLocator (slice_of sample_text)
    [1 * 2 ^ 24 + 255; 1 * 2 ^ 24 + 511; 2 ^ 32 - 1] [0; 18; 42] [18; 24; 3]
    (0 :: 0 :: repeat 2 254).

(** The smallest buffer [init] accepts: [textoff = 2052], no record, no text. *)
Definition empty_db : list byte := be32 2052 ++ repeat x00 1024.

(** A 1028-byte buffer whose [textoff = 2048] is four short of the header. *)
Definition short_db : list byte := be32 2048 ++ repeat x00 1024.

Definition sample_ReadFile (dataFile : string) : slice byte * option error :=
  if String.eqb dataFile "ip.dat" then (slice_of sample_db, None)
  else if String.eqb dataFile "empty.dat" then (slice_of empty_db, None)
  else if String.eqb dataFile "short.dat" then (slice_of short_db, None)
  else if String.eqb dataFile "truncated.dat" then (slice_of [], None)
  else (nil_slice, Some (ErrOS "no such file or directory")).

Definition ipv6_loopback : list byte := repeat x00 15 ++ [x01].

(** Agrees with [net.ParseIP] on the three texts used below. *)
Definition sample_ParseIP (s : string) : IP :=
  if String.eqb s "::1" then Some (slice_of ipv6_loopback)
  else if String.eqb s "1.0.0.7" then
    Some (slice_of (repeat x00 10 ++ [xff; xff; x01; x00; x00; x07]))
  else None.

(** ** The decoder's tables, entry by entry *)

(** The byte at position [k] of the buffer's backing array. *)
Definition byte_at (data : slice byte) (k : Z) : byte :=
  nth (Z.to_nat k) (backing data) x00.

(** [int(binary.LittleEndian.Uint32(data[4+i*4 : 4+i*4+4]))]. *)
Definition prefix_entry (data : slice byte) (i : Z) : Z :=
  let off := 4 + i * 4 in
  le_combine (byte_at data off) (byte_at data (off + 1))
             (byte_at data (off + 2)) (byte_at data (off + 3)).

(** [binary.BigEndian.Uint32(data[off : off+4])] with [off = 4+1024+i*8]. *)
Definition range_bound (data : slice byte) (i : Z) : Z :=
  let off := 1028 + i * 8 in
  be_combine (byte_at data off) (byte_at data (off + 1))
             (byte_at data (off + 2)) (byte_at data (off + 3)).

(** [int(uint32(data[off+4]) | uint32(data[off+5])<<8 | uint32(data[off+6])<<16)]. *)
Definition record_offset (data : slice byte) (i : Z) : Z :=
  let off := 1028 + i * 8 in
  Z.lor (Z.lor (byte_val (byte_at data (off + 4)))
               (uint32 (Z.shiftl (byte_val (byte_at data (off + 5))) 8)))
        (uint32 (Z.shiftl (byte_val (byte_at data (off + 6))) 16)).

(** [int(data[off+7])]. *)
Definition record_length (data : slice byte) (i : Z) : Z :=
  byte_val (byte_at data (1028 + i * 8 + 7)).

(** [[f 0; f 1; ...; f (n-1)]]. *)
Definition tabulate (n : nat) (f : Z -> Z) : list Z :=
  map (fun i => f (Z.of_nat i)) (seq 0 n).

(** The Locator [init] fills in, table by table: the text from
    [textoff-1024] on, [N = (textoff-2052)/8] records, 256 prefix entries. *)
Definition decoded (data : slice byte) : Locator :=
  let t := header_textoff data in
  let n := Z.to_nat (Z.quot (t - 2052) 8) in
  mkLocator
    (mkSlice (skipn (Z.to_nat (t - 1024)) (backing data))
             (Z.to_nat (len data - (t - 1024))))
    (tabulate n (range_bound data))
    (tabulate n (record_offset data))
    (tabulate n (record_length data))
    (tabulate 256 (prefix_entry data)).

(** The number of tab bytes in a record. *)
Definition tab_count (str : list byte) : nat :=
  length (filter (fun c => Byte.eqb c TAB) str).

(** * Properties *)

Local Open Scope string_scope.
Local Open Scope list_scope.
Local Open Scope Z_scope.

(** ** Splitting and joining *)

Lemma bytes_Split_nonempty (s : list byte) (sep : byte) : bytes_Split s sep <> [].
Proof.
  induction s as [|c s IH]; simpl; [discriminate|].
  destruct (Byte.eqb c sep); [discriminate|].
  destruct (bytes_Split s sep); discriminate.
Qed.

Lemma bytes_Split_app_free (f rest : list byte) (sep : byte) :
  sep_free sep f = true ->
  bytes_Split (f ++ sep :: rest) sep = f :: bytes_Split rest sep.
Proof.
  induction f as [|c f IH]; simpl; intros Hf.
  - now rewrite (Byte.byte_dec_lb (eq_refl sep)).
  - apply andb_prop in Hf as [Hc Hf].
    apply negb_true_iff in Hc. rewrite Hc, (IH Hf). reflexivity.
Qed.

Lemma bytes_Split_free (f : list byte) (sep : byte) :
  sep_free sep f = true -> bytes_Split f sep = [f].
Proof.
  induction f as [|c f IH]; simpl; intros Hf; [reflexivity|].
  apply andb_prop in Hf as [Hc Hf].
  apply negb_true_iff in Hc. rewrite Hc, (IH Hf). reflexivity.
Qed.

(** Splitting what was joined gives the fields back. *)
Lemma bytes_Split_Join (fs : list (list byte)) (sep : byte) :
  fs <> [] -> forallb (sep_free sep) fs = true ->
  bytes_Split (bytes_Join fs sep) sep = fs.
Proof.
  induction fs as [|f fs IH]; intros Hne Hfree; [congruence|].
  simpl in Hfree. apply andb_prop in Hfree as [Hf Hfs].
  destruct fs as [|g fs].
  - simpl. now apply bytes_Split_free.
  - change (bytes_Join (f :: g :: fs) sep) with (f ++ sep :: bytes_Join (g :: fs) sep).
    rewrite bytes_Split_app_free by assumption.
    rewrite IH; [reflexivity|discriminate|assumption].
Qed.

(** The field count is one more than the number of separators. *)
Lemma bytes_Split_length (s : list byte) (sep : byte) :
  length (bytes_Split s sep) = S (length (filter (fun c => Byte.eqb c sep) s)).
Proof.
  induction s as [|c s IH]; simpl; [reflexivity|].
  destruct (Byte.eqb c sep); simpl; [now rewrite IH|].
  pose proof (bytes_Split_nonempty s sep) as Hne.
  destruct (bytes_Split s sep); [congruence|]. simpl in *. assumption.
Qed.

(** ** The record parser *)

Example newLocationInfo_free :
  newLocationInfo (tsv ["US"; "CA"; "Los Angeles"; ""])
  = Ret (mkLocationInfo "US" "CA" "Los Angeles" "N/A" 0 0 0 0 0).
Proof. reflexivity. Qed.

Example newLocationInfo_specific :
  newLocationInfo (tsv ["CN"; ""; ""; "ChinaNet"; "1"; "2"; "3"; "4"; "5"; ""])
  = Ret (mkLocationInfo "CN" "N/A" "N/A" "ChinaNet" 1 2 3 4 5).
Proof. vm_compute. reflexivity. Qed.

Lemma newLocationInfo_4 (str : list byte) :
  let fields := bytes_Split str TAB in
  length fields = 4%nat ->
  newLocationInfo str
  = Ret (mkLocationInfo (or_Null (field fields 0)) (or_Null (field fields 1))
           (or_Null (field fields 2)) Null 0 0 0 0 0).
Proof. intros fields H. unfold newLocationInfo. fold fields. rewrite H. reflexivity. Qed.

Lemma newLocationInfo_5 (str : list byte) :
  let fields := bytes_Split str TAB in
  length fields = 5%nat ->
  newLocationInfo str
  = Ret (mkLocationInfo (or_Null (field fields 0)) (or_Null (field fields 1))
           (or_Null (field fields 2)) (or_Null (field fields 4)) 0 0 0 0 0).
Proof. intros fields H. unfold newLocationInfo. fold fields. rewrite H. reflexivity. Qed.

Lemma newLocationInfo_10 (str : list byte) :
  let fields := bytes_Split str TAB in
  length fields = 10%nat ->
  newLocationInfo str
  = Ret (mkLocationInfo (or_Null (field fields 0)) (or_Null (field fields 1))
           (or_Null (field fields 2)) (or_Null (field fields 3))
           (fst (ParseInt (field fields 4))) (fst (ParseInt (field fields 5)))
           (fst (ParseInt (field fields 6))) (fst (ParseInt (field fields 7)))
           (fst (ParseUint (field fields 8)))).
Proof. intros fields H. unfold newLocationInfo. fold fields. rewrite H. reflexivity. Qed.

Lemma newLocationInfo_other (str : list byte) :
  let n := length (bytes_Split str TAB) in
  n <> 4%nat -> n <> 5%nat -> n <> 10%nat ->
  newLocationInfo str
  = Panic (PanicString (String.append "unexpected ip info:" (string_of_list_byte str))).
Proof.
  intros n H4 H5 H10. unfold newLocationInfo. fold n.
  do 11 (destruct n as [|n]; [try reflexivity; congruence|]). reflexivity.
Qed.

Lemma schema_count_cases (n : nat) :
  n = 4%nat \/ n = 5%nat \/ n = 10%nat \/ (n <> 4%nat /\ n <> 5%nat /\ n <> 10%nat).
Proof. lia. Qed.

Lemma or_Null_not_empty (s : string) : or_Null s <> "".
Proof. unfold or_Null. destruct s; simpl; discriminate. Qed.

Lemma or_Null_empty : or_Null "" = Null.
Proof. reflexivity. Qed.

Lemma or_Null_keeps (s : string) : s <> "" -> or_Null s = s.
Proof. destruct s; [congruence|reflexivity]. Qed.

(** The three schemas on records written down field by field. *)
Lemma newLocationInfo_free_record (f0 f1 f2 f3 : list byte) :
  forallb (sep_free TAB) [f0; f1; f2; f3] = true ->
  newLocationInfo (bytes_Join [f0; f1; f2; f3] TAB)
  = Ret (mkLocationInfo (or_Null (string_of_list_byte f0))
           (or_Null (string_of_list_byte f1)) (or_Null (string_of_list_byte f2))
           Null 0 0 0 0 0).
Proof.
  intros Hfree.
  pose proof (newLocationInfo_4 (bytes_Join [f0; f1; f2; f3] TAB)) as H.
  cbv zeta in H. rewrite bytes_Split_Join in H by (discriminate || exact Hfree).
  exact (H eq_refl).
Qed.

Lemma newLocationInfo_pay_record (f0 f1 f2 f3 f4 : list byte) :
  forallb (sep_free TAB) [f0; f1; f2; f3; f4] = true ->
  newLocationInfo (bytes_Join [f0; f1; f2; f3; f4] TAB)
  = Ret (mkLocationInfo (or_Null (string_of_list_byte f0))
           (or_Null (string_of_list_byte f1)) (or_Null (string_of_list_byte f2))
           (or_Null (string_of_list_byte f4)) 0 0 0 0 0).
Proof.
  intros Hfree.
  pose proof (newLocationInfo_5 (bytes_Join [f0; f1; f2; f3; f4] TAB)) as H.
  cbv zeta in H. rewrite bytes_Split_Join in H by (discriminate || exact Hfree).
  exact (H eq_refl).
Qed.

Lemma newLocationInfo_specific_record (f0 f1 f2 f3 f4 f5 f6 f7 f8 f9 : list byte) :
  forallb (sep_free TAB) [f0; f1; f2; f3; f4; f5; f6; f7; f8; f9] = true ->
  newLocationInfo (bytes_Join [f0; f1; f2; f3; f4; f5; f6; f7; f8; f9] TAB)
  = Ret (mkLocationInfo (or_Null (string_of_list_byte f0))
           (or_Null (string_of_list_byte f1)) (or_Null (string_of_list_byte f2))
           (or_Null (string_of_list_byte f3))
           (fst (ParseInt (string_of_list_byte f4)))
           (fst (ParseInt (string_of_list_byte f5)))
           (fst (ParseInt (string_of_list_byte f6)))
           (fst (ParseInt (string_of_list_byte f7)))
           (fst (ParseUint (string_of_list_byte f8)))).
Proof.
  intros Hfree.
  pose proof (newLocationInfo_10
                (bytes_Join [f0; f1; f2; f3; f4; f5; f6; f7; f8; f9] TAB)) as H.
  cbv zeta in H. rewrite bytes_Split_Join in H by (discriminate || exact Hfree).
  exact (H eq_refl).
Qed.

(** C7.  The parser dispatches on the number of tab-separated fields: with
    4 fields, fields 0-2 are country, region and city and the isp is absent;
    with 5 fields, fields 0-2 are country, region and city, field 3 is not
    used and field 4 is the isp; with 10 fields, fields 0-3 are country,
    region, city and isp and fields 4-8, read as decimal integers, are
    countryId, provinceId, cityId, ispId and the unsigned locationId.  (A
    text field is shown after the replacement of the empty string, which is
    C8.) *)
Theorem newLocationInfo_dispatch (str : list byte) :
  let fields := bytes_Split str TAB in
  (length fields = 4%nat ->
   newLocationInfo str
   = Ret (mkLocationInfo (or_Null (field fields 0)) (or_Null (field fields 1))
            (or_Null (field fields 2)) Null 0 0 0 0 0))
  /\ (length fields = 5%nat ->
      newLocationInfo str
      = Ret (mkLocationInfo (or_Null (field fields 0)) (or_Null (field fields 1))
               (or_Null (field fields 2)) (or_Null (field fields 4)) 0 0 0 0 0))
  /\ (length fields = 10%nat ->
      newLocationInfo str
      = Ret (mkLocationInfo (or_Null (field fields 0)) (or_Null (field fields 1))
               (or_Null (field fields 2)) (or_Null (field fields 3))
               (fst (ParseInt (field fields 4))) (fst (ParseInt (field fields 5)))
               (fst (ParseInt (field fields 6))) (fst (ParseInt (field fields 7)))
               (fst (ParseUint (field fields 8))))).
Proof.
  intros fields. repeat split.
  - apply newLocationInfo_4.
  - apply newLocationInfo_5.
  - apply newLocationInfo_10.
Qed.

Lemma newLocationInfo_dispatch_witness :
  newLocationInfo (tsv ["US"; "CA"; "Los Angeles"; ""])
  = Ret (mkLocationInfo "US" "CA" "Los Angeles" "N/A" 0 0 0 0 0)
  /\ newLocationInfo (tsv ["US"; "CA"; "Los Angeles"; "x"; "Comcast"])
     = Ret (mkLocationInfo "US" "CA" "Los Angeles" "Comcast" 0 0 0 0 0)
  /\ newLocationInfo (tsv ["CN"; ""; ""; "ChinaNet"; "1"; "-2"; "+3"; "4"; "5"; ""])
     = Ret (mkLocationInfo "CN" "N/A" "N/A" "ChinaNet" 1 (-2) 3 4 5).
Proof.
  split; [|split].
  - exact (proj1 (newLocationInfo_dispatch (tsv ["US"; "CA"; "Los Angeles"; ""]))
             eq_refl).
  - exact (proj1 (proj2 (newLocationInfo_dispatch
                           (tsv ["US"; "CA"; "Los Angeles"; "x"; "Comcast"]))) eq_refl).
  - exact (proj2 (proj2 (newLocationInfo_dispatch
                           (tsv ["CN"; ""; ""; "ChinaNet"; "1"; "-2"; "+3"; "4"; "5"; ""])))
             eq_refl).
Defined.

(** ** What [strconv] returns next to an error *)

Lemma ParseUint_digits_error (cs : list byte) (n : Z) :
  match snd (ParseUint_digits cs n) with
  | Some ErrSyntax => fst (ParseUint_digits cs n) = 0
  | Some ErrRange => fst (ParseUint_digits cs n) = maxUint64
  | None => True
  end.
Proof.
  revert n. induction cs as [|c cs IH]; intros n; cbn [ParseUint_digits fst snd];
    [exact I|].
  destruct ((48 <=? byte_val c) && (byte_val c <=? 57)); cbn [fst snd];
    [|reflexivity].
  destruct (n >=? maxUint64 / 10 + 1); cbn [fst snd]; [reflexivity|].
  match goal with |- context [if ?b then _ else _] => destruct b end;
    cbn [fst snd]; [reflexivity|apply IH].
Qed.

Lemma ParseUint_error (s : string) :
  match snd (ParseUint s) with
  | Some ErrSyntax => fst (ParseUint s) = 0
  | Some ErrRange => fst (ParseUint s) = maxUint64
  | None => True
  end.
Proof.
  unfold ParseUint. destruct s; [reflexivity|apply ParseUint_digits_error].
Qed.

Lemma ParseInt_error (s : string) :
  match snd (ParseInt s) with
  | Some ErrSyntax => fst (ParseInt s) = 0
  | Some ErrRange => fst (ParseInt s) = 2 ^ 63 - 1 \/ fst (ParseInt s) = - 2 ^ 63
  | None => True
  end.
Proof.
  unfold ParseInt. destruct s as [|c s]; [reflexivity|].
  set (rest := if (c =? "+")%char || (c =? "-")%char then s else String c s).
  destruct (ParseUint rest) as [un [[|]|]]; cbv zeta; cbn [fst snd].
  - reflexivity.
  - destruct (negb (c =? "-")%char && (un >=? 2 ^ 63)); cbn [fst snd];
      [left; reflexivity|].
    destruct ((c =? "-")%char && (un >? 2 ^ 63)); cbn [fst snd];
      [right; reflexivity|exact I].
  - destruct (negb (c =? "-")%char && (un >=? 2 ^ 63)); cbn [fst snd];
      [left; reflexivity|].
    destruct ((c =? "-")%char && (un >? 2 ^ 63)); cbn [fst snd];
      [right; reflexivity|exact I].
Qed.

(** C8.  In every record that parses, a country, region, city or isp that
    is the empty string in the record (the isp of the 4-field schema,
    which has none, included) comes back as the sentinel "N/A", whatever the
    schema; a field that is not empty comes back as it is, and no text field
    of the result is empty. *)
Theorem newLocationInfo_empty_fields (str : list byte) (info : LocationInfo) :
  newLocationInfo str = Ret info ->
  let fields := bytes_Split str TAB in
  let isp := match length fields with
             | 4%nat => ""
             | 5%nat => field fields 4
             | _ => field fields 3
             end in
  (field fields 0 = "" -> Country info = Null)
  /\ (field fields 1 = "" -> Region info = Null)
  /\ (field fields 2 = "" -> City info = Null)
  /\ (isp = "" -> Isp info = Null)
  /\ Country info = or_Null (field fields 0)
  /\ Region info = or_Null (field fields 1)
  /\ City info = or_Null (field fields 2)
  /\ Isp info = or_Null isp
  /\ Country info <> "" /\ Region info <> "" /\ City info <> "" /\ Isp info <> "".
Proof.
  intros Hret fields isp.
  assert (Hall : Country info = or_Null (field fields 0)
                 /\ Region info = or_Null (field fields 1)
                 /\ City info = or_Null (field fields 2)
                 /\ Isp info = or_Null isp).
  { destruct (schema_count_cases (length fields)) as [H|[H|[H|(H4 & H5 & H10)]]].
    - pose proof (newLocationInfo_4 str H) as E. cbv zeta in E. rewrite Hret in E.
      injection E as ->. subst isp. rewrite H. simpl. auto.
    - pose proof (newLocationInfo_5 str H) as E. cbv zeta in E. rewrite Hret in E.
      injection E as ->. subst isp. rewrite H. simpl. auto.
    - pose proof (newLocationInfo_10 str H) as E. cbv zeta in E. rewrite Hret in E.
      injection E as ->. subst isp. rewrite H. simpl. auto.
    - pose proof (newLocationInfo_other str H4 H5 H10) as E. cbv zeta in E. rewrite Hret in E.
      discriminate. }
  destruct Hall as (Hc & Hr & Hy & Hi).
  rewrite Hc, Hr, Hy, Hi.
  repeat split; try apply or_Null_not_empty; intros ->; reflexivity.
Qed.

Lemma newLocationInfo_empty_fields_witness :
  newLocationInfo (tsv ["CN"; ""; ""; "x"])
  = Ret (mkLocationInfo "CN" "N/A" "N/A" "N/A" 0 0 0 0 0)
  /\ City (mkLocationInfo "CN" "N/A" "N/A" "N/A" 0 0 0 0 0) = Null
  /\ Isp (mkLocationInfo "CN" "N/A" "N/A" "N/A" 0 0 0 0 0) = Null.
Proof.
  split; [reflexivity|].
  pose proof (newLocationInfo_empty_fields (tsv ["CN"; ""; ""; "x"])
                (mkLocationInfo "CN" "N/A" "N/A" "N/A" 0 0 0 0 0) eq_refl)
    as (_ & _ & Hcity & Hisp & _).
  split; [exact (Hcity eq_refl)|exact (Hisp eq_refl)].
Defined.

(** One numeric subfield of the 10-field schema: the value the parser
    reported, which is 0 next to a syntax error and the nearest bound next to
    a range error. *)
Lemma lenient_signed_of_ParseInt (s : string) : lenient_signed s (fst (ParseInt s)).
Proof.
  unfold lenient_signed. pose proof (ParseInt_error s) as H.
  destruct (snd (ParseInt s)) as [[|]|]; repeat split; try discriminate; auto.
Qed.

Lemma lenient_unsigned_of_ParseUint (s : string) :
  lenient_unsigned s (fst (ParseUint s)).
Proof.
  unfold lenient_unsigned. pose proof (ParseUint_error s) as H.
  destruct (snd (ParseUint s)) as [[|]|]; repeat split; try discriminate; auto.
Qed.

(** C9, in the form that holds.  In the 10-field schema the parser never
    panics and never reports an error; each of the identifiers is the value
    [strconv] returned for its own subfield (fields 4-8), whatever the other
    subfields hold: zero when the subfield is not a decimal integer (syntax
    error), and the nearest bound (2^63-1 or -2^63 for the signed
    identifiers, 2^64-1 for locationId) when it is a decimal integer out of
    range; the text fields are those of fields 0-3. *)
Theorem newLocationInfo_numeric_fields (str : list byte) :
  let fields := bytes_Split str TAB in
  length fields = 10%nat ->
  exists info,
    newLocationInfo str = Ret info
    /\ Country info = or_Null (field fields 0)
    /\ Region info = or_Null (field fields 1)
    /\ City info = or_Null (field fields 2)
    /\ Isp info = or_Null (field fields 3)
    /\ lenient_signed (field fields 4) (Country_id info)
    /\ lenient_signed (field fields 5) (Province_id info)
    /\ lenient_signed (field fields 6) (City_id info)
    /\ lenient_signed (field fields 7) (Isp_id info)
    /\ lenient_unsigned (field fields 8) (Location_id info).
Proof.
  intros fields H. eexists. split; [apply newLocationInfo_10; exact H|].
  cbn [Country Region City Isp Country_id Province_id City_id Isp_id Location_id].
  fold fields.
  repeat split; try reflexivity;
    try (apply lenient_signed_of_ParseInt); try (apply lenient_unsigned_of_ParseUint);
    try (apply ParseInt_error); try (apply ParseUint_error).
Qed.

Lemma newLocationInfo_numeric_fields_witness :
  exists info,
    newLocationInfo
      (tsv ["CN"; ""; ""; "ChinaNet"; "x1"; ""; "99999999999999999999"; "-4"; "-5"; ""])
    = Ret info
    /\ Country_id info = 0 /\ Province_id info = 0
    /\ City_id info = 2 ^ 63 - 1 /\ Isp_id info = -4 /\ Location_id info = 0.
Proof.
  destruct (newLocationInfo_numeric_fields
              (tsv ["CN"; ""; ""; "ChinaNet"; "x1"; ""; "99999999999999999999"; "-4";
                    "-5"; ""]) eq_refl)
    as (info & Hret & _ & _ & _ & _ & H4 & H5 & H6 & H7 & H8).
  exists info. split; [exact Hret|].
  destruct H4 as (E4 & _), H5 as (E5 & _), H6 as (E6 & _), H7 as (E7 & _),
    H8 as (E8 & _).
  rewrite E4, E5, E6, E7, E8. vm_compute. repeat split.
Defined.

(** C9 as specified (every subfield that fails to parse gives zero) does
    not hold: a subfield that is a decimal integer too large for 64 bits
    fails to parse and yet the identifier is not zero. *)
Lemma newLocationInfo_range_error_not_zero :
  snd (ParseInt "9223372036854775808") = Some ErrRange
  /\ newLocationInfo
       (tsv ["CN"; ""; ""; "ChinaNet"; "9223372036854775808"; "2"; "3"; "4"; "5"; ""])
     = Ret (mkLocationInfo "CN" "N/A" "N/A" "ChinaNet" 9223372036854775807 2 3 4 5)
  /\ Country_id (mkLocationInfo "CN" "N/A" "N/A" "ChinaNet" 9223372036854775807 2 3 4 5)
     <> 0.
Proof. vm_compute. repeat split; discriminate. Qed.

(** The lookup hands the record it found to the parser. *)
Lemma Locator_FindByUint_record (fuel : nat) (loc : Locator) (ip start end_ i off n : Z)
      (s : slice byte) :
  search_bounds loc ip = Ret (start, end_) ->
  findIndexOffset fuel loc ip start end_ = Some (Ret i) ->
  idx (indexData2 loc) i = Ret off ->
  idx (indexData3 loc) i = Ret n ->
  reslice (textData loc) off (off +i n) = Ret s ->
  Locator_FindByUint fuel (Some loc) ip = Some (newLocationInfo (elems s)).
Proof.
  intros Hb Hf H2 H3 Hs. unfold Locator_FindByUint.
  rewrite Hb, Hf. cbn [obind]. rewrite H2. cbn [obind]. rewrite H3. cbn [obind].
  rewrite Hs. reflexivity.
Qed.

(** C3, in the form that holds.  A record whose tab-separated field count is
    not 4, 5 or 10 makes the parser panic with the message "unexpected ip
    info:" followed by the record; no error value is returned, and the
    lookup that found the record panics with the same message. *)
Theorem newLocationInfo_unexpected (str : list byte) :
  let n := length (bytes_Split str TAB) in
  n <> 4%nat -> n <> 5%nat -> n <> 10%nat ->
  newLocationInfo str
  = Panic (PanicString (String.append "unexpected ip info:" (string_of_list_byte str)))
  /\ ~ returns (newLocationInfo str)
  /\ forall fuel loc ip start end_ i off len_ s,
       search_bounds loc ip = Ret (start, end_) ->
       findIndexOffset fuel loc ip start end_ = Some (Ret i) ->
       idx (indexData2 loc) i = Ret off ->
       idx (indexData3 loc) i = Ret len_ ->
       reslice (textData loc) off (off +i len_) = Ret s ->
       elems s = str ->
       Locator_FindByUint fuel (Some loc) ip
       = Some (Panic (PanicString (String.append "unexpected ip info:"
                                     (string_of_list_byte str)))).
Proof.
  intros n H4 H5 H10.
  pose proof (newLocationInfo_other str H4 H5 H10) as E. cbv zeta in E.
  split; [exact E|]. split.
  - intros [info Hinfo]. rewrite E in Hinfo. discriminate.
  - intros fuel loc ip start end_ i off len_ s Hb Hf H2 H3 Hs <-.
    rewrite (Locator_FindByUint_record fuel loc ip start end_ i off len_ s Hb Hf H2 H3 Hs).
    now rewrite E.
Qed.

Lemma newLocationInfo_unexpected_witness :
  newLocationInfo (tsv ["a"; "b"])
  = Panic (PanicString (String.append "unexpected ip info:"
                          (string_of_list_byte (tsv ["a"; "b"]))))
  /\ Locator_FindByUint 2 (Some sample_Locator) (2 ^ 24 + 512)
     = Some (Panic (PanicString (String.append "unexpected ip info:"
                                   (string_of_list_byte (tsv ["a"; "b"]))))).
Proof.
  destruct (newLocationInfo_unexpected (tsv ["a"; "b"])) as (Hparse & _ & Hlookup);
    [simpl; discriminate ..|].
  split; [exact Hparse|].
  apply (Hlookup 2%nat sample_Locator (2 ^ 24 + 512) 0 2 2 42 3
           (mkSlice (skipn 42 sample_text) 3)); reflexivity.
Defined.

(** C3 as specified (a ParseError is returned) does not hold: the
    two-field record does not come back as an error value, the parser panics;
    the lookup that reaches the record panics with it, and the same Locator
    answers the next lookup. *)
Lemma newLocationInfo_panics_not_error :
  ~ returns (newLocationInfo (tsv ["a"; "b"]))
  /\ newLocationInfo (tsv ["a"; "b"])
     = Panic (PanicString (String.append "unexpected ip info:"
                             (string_of_list_byte (tsv ["a"; "b"]))))
  /\ Locator_FindByUint 2 (Some sample_Locator) (2 ^ 24 + 512)
     = Some (Panic (PanicString (String.append "unexpected ip info:"
                                   (string_of_list_byte (tsv ["a"; "b"])))))
  /\ Locator_FindByUint 2 (Some sample_Locator) (2 ^ 24 + 5)
     = Some (Ret (mkLocationInfo "US" "CA" "Los Angeles" "N/A" 0 0 0 0 0)).
Proof.
  split; [|vm_compute; auto].
  intros [info Hinfo]. vm_compute in Hinfo. discriminate.
Qed.

(** ** What [strconv] returns for a decimal numeral *)

Lemma decimal_value_ge (cs : list byte) (n : Z) :
  forallb is_digit cs = true -> 0 <= n -> n <= decimal_value cs n.
Proof.
  revert n. induction cs as [|c cs IH]; intros n Hd Hn; simpl; [lia|].
  simpl in Hd. apply andb_prop in Hd as [Hc Hd].
  unfold is_digit in Hc. apply andb_prop in Hc as [H1 H2].
  apply Z.leb_le in H1, H2.
  specialize (IH (n * 10 + (byte_val c - 48)) Hd). lia.
Qed.

Lemma ParseUint_digits_decimal (cs : list byte) (n : Z) :
  forallb is_digit cs = true -> 0 <= n -> decimal_value cs n <= maxUint64 ->
  ParseUint_digits cs n = (decimal_value cs n, None).
Proof.
  revert n. induction cs as [|c cs IH]; intros n Hd Hn Hmax; [reflexivity|].
  simpl in Hd. apply andb_prop in Hd as [Hc Hd].
  pose proof Hc as Hc'. unfold is_digit in Hc'. apply andb_prop in Hc' as [H1 H2].
  apply Z.leb_le in H1, H2.
  cbn [ParseUint_digits decimal_value fold_left] in *.
  fold (is_digit c). rewrite Hc.
  pose proof (decimal_value_ge cs (n * 10 + (byte_val c - 48)) Hd ltac:(lia)) as Hge.
  fold (decimal_value cs (n * 10 + (byte_val c - 48))) in Hmax |- *.
  unfold maxUint64 in *.
  assert (Hcut : (n >=? (2 ^ 64 - 1) / 10 + 1) = false).
  { destruct (Z.geb_spec n ((2 ^ 64 - 1) / 10 + 1)) as [Hbig|]; [|reflexivity].
    change ((2 ^ 64 - 1) / 10 + 1) with 1844674407370955162 in Hbig. lia. }
  rewrite Hcut.
  assert (H10 : uint64 (n * 10) = n * 10) by (unfold uint64; apply Z.mod_small; lia).
  rewrite H10.
  assert (H11 : uint64 (n * 10 + (byte_val c - 48)) = n * 10 + (byte_val c - 48))
    by (unfold uint64; apply Z.mod_small; lia).
  rewrite H11.
  assert (Hno : (n * 10 + (byte_val c - 48) <? n * 10)
                || (n * 10 + (byte_val c - 48) >? 2 ^ 64 - 1) = false).
  { apply orb_false_intro; [apply Z.ltb_ge; lia|].
    destruct (Z.gtb_spec (n * 10 + (byte_val c - 48)) (2 ^ 64 - 1)); [lia|reflexivity]. }
  rewrite Hno. apply IH; [exact Hd|lia|exact Hmax].
Qed.

(** A non-empty run of decimal digits that fits 64 bits is read as its
    value. *)
Lemma ParseUint_decimal (s : string) :
  s <> "" -> forallb is_digit (list_byte_of_string s) = true ->
  decimal_value (list_byte_of_string s) 0 <= maxUint64 ->
  ParseUint s = (decimal_value (list_byte_of_string s) 0, None).
Proof.
  intros Hne Hd Hmax. unfold ParseUint. destruct s; [congruence|].
  apply ParseUint_digits_decimal; [exact Hd|lia|exact Hmax].
Qed.

Lemma digit_not_sign (c : ascii) :
  is_digit (byte_of_ascii c) = true -> (c =? "+")%char = false /\ (c =? "-")%char = false.
Proof.
  intros Hd. split.
  - destruct (Ascii.eqb_spec c "+"); [subst; discriminate|reflexivity].
  - destruct (Ascii.eqb_spec c "-"); [subst; discriminate|reflexivity].
Qed.

(** The same with a sign: below [2^63] a numeral is read as its value, and
    after ["-"], up to [2^63], as its negation. *)
Lemma ParseInt_decimal (s : string) :
  s <> "" -> forallb is_digit (list_byte_of_string s) = true ->
  (decimal_value (list_byte_of_string s) 0 < 2 ^ 63 ->
   ParseInt s = (decimal_value (list_byte_of_string s) 0, None))
  /\ (decimal_value (list_byte_of_string s) 0 <= 2 ^ 63 ->
      ParseInt (String "-" s) = (- decimal_value (list_byte_of_string s) 0, None)).
Proof.
  intros Hne Hd. set (v := decimal_value (list_byte_of_string s) 0).
  assert (H0 : 0 <= v) by (apply decimal_value_ge; [exact Hd|lia]).
  split; intros Hv.
  - destruct s as [|c s]; [congruence|].
    assert (Hc : is_digit (byte_of_ascii c) = true).
    { change (list_byte_of_string (String c s))
        with (byte_of_ascii c :: list_byte_of_string s) in Hd.
      cbn [forallb] in Hd. now apply andb_prop in Hd as [Hc _]. }
    destruct (digit_not_sign c Hc) as [Hp Hm].
    unfold ParseInt. rewrite Hp, Hm. cbn [orb negb andb].
    rewrite ParseUint_decimal; [|discriminate|exact Hd|fold v; unfold maxUint64; lia].
    fold v. cbv zeta.
    destruct (Z.geb_spec v (2 ^ 63)); [lia|reflexivity].
  - unfold ParseInt.
    change (("-" =? "+")%char) with false. change (("-" =? "-")%char) with true.
    cbn [orb negb andb].
    rewrite ParseUint_decimal; [|exact Hne|exact Hd|fold v; unfold maxUint64; lia].
    fold v. cbv zeta.
    destruct (Z.gtb_spec v (2 ^ 63)); [lia|reflexivity].
Qed.

Example ParseInt_examples :
  ParseInt "42" = (42, None) /\ ParseInt "-42" = (-42, None)
  /\ ParseInt "+42" = (42, None) /\ ParseInt "4x2" = (0, Some ErrSyntax)
  /\ ParseInt "" = (0, Some ErrSyntax)
  /\ ParseInt "-9223372036854775809" = (- 2 ^ 63, Some ErrRange)
  /\ ParseUint "-5" = (0, Some ErrSyntax)
  /\ ParseUint "18446744073709551616" = (2 ^ 64 - 1, Some ErrRange).
Proof. vm_compute. repeat split. Qed.

(** ** Integers and checked access *)

Lemma int_small (z : Z) : - 2 ^ 63 <= z < 2 ^ 63 -> int z = z.
Proof.
  intros H. unfold int.
  rewrite Z.mod_small; lia.
Qed.

Lemma idx_in_range {A : Type} (l : list A) (i : Z) :
  0 <= i < Z.of_nat (length l) -> exists a, idx l i = Ret a /\ nth_error l (Z.to_nat i) = Some a.
Proof.
  intros H. unfold idx.
  replace ((0 <=? i) && (i <? Z.of_nat (length l))) with true
    by (symmetry; apply andb_true_intro; split; [apply Z.leb_le|apply Z.ltb_lt]; lia).
  destruct (nth_error l (Z.to_nat i)) as [a|] eqn:E; [eauto|].
  apply nth_error_None in E. lia.
Qed.

Lemma idx_elt (l : list Z) (i : Z) :
  0 <= i < Z.of_nat (length l) -> idx l i = Ret (elt l i).
Proof.
  intros H. destruct (idx_in_range l i H) as (a & -> & E).
  unfold elt. now rewrite (nth_error_nth _ _ 0 E).
Qed.

Lemma idx_out_of_range {A : Type} (l : list A) (i : Z) :
  ~ 0 <= i < Z.of_nat (length l) ->
  idx l i = Panic (IndexOutOfRange i (Z.of_nat (length l))).
Proof.
  intros H. unfold idx.
  destruct ((0 <=? i) && (i <? Z.of_nat (length l))) eqn:E; [|reflexivity].
  apply andb_prop in E as [E1 E2]. apply Z.leb_le in E1. apply Z.ltb_lt in E2. lia.
Qed.

Lemma is_sorted_cons (a : Z) (l : list Z) :
  is_sorted (a :: l) = true -> is_sorted l = true /\ forall b, In b l -> a <= b.
Proof.
  revert a. induction l as [|b l IH]; intros a H.
  - split; [reflexivity|intros ? []].
  - simpl in H. apply andb_prop in H as [Hab Hl]. apply Z.leb_le in Hab.
    split; [exact Hl|].
    intros c [<-|Hc]; [exact Hab|].
    destruct (IH b Hl) as [_ Hb]. specialize (Hb c Hc). lia.
Qed.

Lemma is_sorted_nth (l : list Z) :
  is_sorted l = true ->
  forall i j, (i <= j < length l)%nat -> nth i l 0 <= nth j l 0.
Proof.
  induction l as [|a l IH]; intros Hs i j Hij; [simpl in Hij; lia|].
  destruct (is_sorted_cons a l Hs) as [Hl Ha].
  destruct i as [|i], j as [|j]; simpl in *; try lia.
  - apply Ha, nth_In. lia.
  - apply IH; [exact Hl|lia].
Qed.

Lemma is_sorted_elt (l : list Z) (i j : Z) :
  is_sorted l = true -> 0 <= i <= j -> j < Z.of_nat (length l) -> elt l i <= elt l j.
Proof.
  intros Hs Hij Hj. unfold elt. apply is_sorted_nth; [exact Hs|lia].
Qed.

(** ** The binary search *)

Lemma midpoint (start end_ : Z) :
  0 <= start -> start < end_ -> end_ < 2 ^ 62 ->
  Z.quot (start +i end_) 2 = (start + end_) / 2
  /\ start <= (start + end_) / 2 < end_.
Proof.
  intros H0 Hlt Hb.
  rewrite int_small by lia.
  rewrite Z.quot_div_nonneg by lia.
  split; [reflexivity|].
  split; [apply Z.div_le_lower_bound|apply Z.div_lt_upper_bound]; lia.
Qed.

(** On a valid sub-range of sorted bounds the loop ends with
    [start = end_], on the first bound that is at least [ip]. *)
Lemma findIndexOffset_loop_converges (loc : Locator) (ip : Z) :
  is_sorted (indexData1 loc) = true ->
  Z.of_nat (length (indexData1 loc)) <= 2 ^ 62 ->
  forall (fuel : nat) (start end_ : Z),
    0 <= start <= end_ -> end_ < Z.of_nat (length (indexData1 loc)) ->
    (Z.to_nat (end_ - start) <= fuel)%nat ->
    exists m,
      findIndexOffset_loop fuel loc ip start end_ = Some (Ret (m, m))
      /\ least_ge (indexData1 loc) ip start end_ m.
Proof.
  intros Hs HN. induction fuel as [|fuel IH]; intros start end_ Hse He Hfuel.
  - assert (start = end_) as -> by lia.
    exists end_. simpl. rewrite Z.ltb_irrefl.
    split; [reflexivity|]. unfold least_ge. repeat split; lia.
  - cbn [findIndexOffset_loop].
    destruct (start <? end_) eqn:Hlt.
    + apply Z.ltb_lt in Hlt.
      destruct (midpoint start end_) as [-> Hmid]; try lia.
      set (mid := (start + end_) / 2) in *.
      rewrite idx_elt by lia.
      destruct (ip >? elt (indexData1 loc) mid) eqn:Hcmp.
      * apply Z.gtb_lt in Hcmp.
        rewrite int_small by lia.
        destruct (IH (mid + 1) end_) as (m & Hm & Hr1 & Hr2 & Hr3); try lia.
        exists m. split; [exact Hm|]. unfold least_ge. repeat split; try lia.
        intros j Hj.
        destruct (Z_lt_le_dec mid j) as [Hgt|Hle]; [apply Hr2; lia|].
        pose proof (is_sorted_elt (indexData1 loc) j mid Hs) as Hmono. lia.
      * assert (Hle : ip <= elt (indexData1 loc) mid).
        { destruct (Z.gtb_spec ip (elt (indexData1 loc) mid)); [discriminate|lia]. }
        destruct (IH start mid) as (m & Hm & Hr1 & Hr2 & Hr3); try lia.
        exists m. split; [exact Hm|]. unfold least_ge. repeat split; try lia.
        exact Hr2.
        intros Hme. destruct (Z.eq_dec m mid) as [->|Hne]; [exact Hle|apply Hr3; lia].
    + apply Z.ltb_ge in Hlt. assert (start = end_) as -> by lia.
      exists end_. split; [reflexivity|]. unfold least_ge. repeat split; lia.
Qed.

(** After the loop: [end] when its bound is at least [ip], else [start]. *)
Lemma findIndexOffset_tie_break (fuel : nat) (loc : Locator) (ip start end_ s e : Z) :
  findIndexOffset_loop fuel loc ip start end_ = Some (Ret (s, e)) ->
  0 <= e < Z.of_nat (length (indexData1 loc)) ->
  findIndexOffset fuel loc ip start end_
  = Some (Ret (if elt (indexData1 loc) e >=? ip then e else s)).
Proof.
  intros Hloop He. unfold findIndexOffset. rewrite Hloop, idx_elt by exact He.
  simpl. now destruct (elt (indexData1 loc) e >=? ip).
Qed.

(** C4, in the form that holds.  On sorted bounds and a valid sub-range
    [start..end] the search returns, given fuel for [end - start]
    iterations: the loop ends with [start = end], the tie-break returns
    [end] when its bound is at least the address and [start] otherwise (the
    same index), and this index is the least one of the sub-range whose bound
    is at least the address, or [end] when there is none. *)
Theorem findIndexOffset_least_ge (loc : Locator) (ip start end_ : Z) (fuel : nat) :
  is_sorted (indexData1 loc) = true ->
  Z.of_nat (length (indexData1 loc)) <= 2 ^ 62 ->
  0 <= start <= end_ -> end_ < Z.of_nat (length (indexData1 loc)) ->
  (Z.to_nat (end_ - start) <= fuel)%nat ->
  exists s e,
    findIndexOffset_loop fuel loc ip start end_ = Some (Ret (s, e))
    /\ s = e
    /\ findIndexOffset fuel loc ip start end_
       = Some (Ret (if elt (indexData1 loc) e >=? ip then e else s))
    /\ least_ge (indexData1 loc) ip start end_ e.
Proof.
  intros Hs HN Hse He Hfuel.
  destruct (findIndexOffset_loop_converges loc ip Hs HN fuel start end_ Hse He Hfuel)
    as (m & Hloop & Hleast).
  exists m, m. split; [exact Hloop|]. split; [reflexivity|]. split; [|exact Hleast].
  apply findIndexOffset_tie_break; [exact Hloop|].
  destruct Hleast as (Hm & _). lia.
Qed.

Lemma findIndexOffset_least_ge_witness :
  exists s e,
    findIndexOffset_loop 2 sample_Locator (2 ^ 24 + 256) 0 2 = Some (Ret (s, e))
    /\ s = e
    /\ findIndexOffset 2 sample_Locator (2 ^ 24 + 256) 0 2
       = Some (Ret (if elt (indexData1 sample_Locator) e >=? 2 ^ 24 + 256 then e else s))
    /\ least_ge (indexData1 sample_Locator) (2 ^ 24 + 256) 0 2 e.
Proof.
  apply (findIndexOffset_least_ge sample_Locator (2 ^ 24 + 256) 0 2 2).
  - reflexivity.
  - simpl. lia.
  - lia.
  - simpl. lia.
  - simpl. lia.
Defined.

(** C4 as specified (the greatest index whose bound is at most the
    address) does not hold: for the address 1.0.1.0, whose predecessor
    1.0.0.255 is the bound at index 0, the search returns index 1, where the
    bound is above the address, while the greatest index whose bound is at
    most the address is 0. *)
Lemma findIndexOffset_not_greatest_le :
  is_sorted (indexData1 sample_Locator) = true
  /\ elt (indexData1 sample_Locator) 0 <= 2 ^ 24 + 256
  /\ findIndexOffset 2 sample_Locator (2 ^ 24 + 256) 0 2 = Some (Ret 1)
  /\ ~ greatest_le (indexData1 sample_Locator) (2 ^ 24 + 256) 0 2 1
  /\ greatest_le (indexData1 sample_Locator) (2 ^ 24 + 256) 0 2 0.
Proof.
  split; [reflexivity|]. split; [vm_compute; discriminate|].
  split; [reflexivity|]. split.
  - intros (_ & H & _). vm_compute in H. apply H. reflexivity.
  - unfold greatest_le. split; [lia|]. split; [vm_compute; discriminate|].
    intros j Hj. assert (j = 1 \/ j = 2) as [-> | ->] by lia; vm_compute; reflexivity.
Qed.

(** ** The bounds of the search *)

Lemma top_octet (ip : Z) : 0 <= ip < 2 ^ 32 -> 0 <= Z.shiftr ip 24 <= 255.
Proof.
  intros H. rewrite Z.shiftr_div_pow2 by lia.
  split; [apply Z.div_pos; lia|].
  assert (ip / 2 ^ 24 < 256) by (apply Z.div_lt_upper_bound; lia). lia.
Qed.

(** With [0 <= start] and [end_] below the length, the loop reads within
    the bounds array only, and leaves with [end_] still below the length. *)
Lemma findIndexOffset_loop_in_bounds (loc : Locator) (ip : Z) :
  Z.of_nat (length (indexData1 loc)) <= 2 ^ 62 ->
  forall (fuel : nat) (start end_ : Z),
    0 <= start -> end_ < Z.of_nat (length (indexData1 loc)) ->
    match findIndexOffset_loop fuel loc ip start end_ with
    | None => True
    | Some (Panic _) => False
    | Some (Ret (s, e)) => 0 <= s /\ e < Z.of_nat (length (indexData1 loc))
    end.
Proof.
  intros HN. induction fuel as [|fuel IH]; intros start end_ H0 He.
  - simpl. destruct (start <? end_); [exact I|split; assumption].
  - cbn [findIndexOffset_loop].
    destruct (start <? end_) eqn:Hlt; [|split; assumption].
    apply Z.ltb_lt in Hlt.
    destruct (midpoint start end_) as [-> Hmid]; try lia.
    rewrite idx_elt by lia.
    destruct (ip >? elt (indexData1 loc) ((start + end_) / 2)).
    + rewrite int_small by lia. apply IH; lia.
    + apply IH; lia.
Qed.

Lemma findIndexOffset_never_past_end (loc : Locator) (ip start end_ : Z) (fuel : nat) :
  Z.of_nat (length (indexData1 loc)) <= 2 ^ 62 ->
  0 <= start -> end_ < Z.of_nat (length (indexData1 loc)) ->
  forall i n,
    findIndexOffset fuel loc ip start end_ = Some (Panic (IndexOutOfRange i n)) ->
    i < 0.
Proof.
  intros HN H0 He i n Hres.
  pose proof (findIndexOffset_loop_in_bounds loc ip HN fuel start end_ H0 He) as Hloop.
  unfold findIndexOffset in Hres.
  destruct (findIndexOffset_loop fuel loc ip start end_) as [[[s e]|p]|];
    [|contradiction|discriminate].
  destruct Hloop as [Hs Hlt].
  destruct (Z_lt_le_dec e 0) as [Hneg|Hpos].
  - rewrite idx_out_of_range in Hres by lia. cbn [obind] in Hres.
    injection Hres as <- _. exact Hneg.
  - rewrite idx_elt in Hres by lia. cbn [obind] in Hres.
    destruct (elt (indexData1 loc) e >=? ip); discriminate.
Qed.

(** C5.  For a Locator of the shape the decoder builds and every [uint32]
    address with top octet [b], the search runs between
    [start = index[b]] and [end = index[b+1]] when [b] is not 255, and
    [end = N-1] when it is; so for [b = 255] the prefix index is read at 255
    only, [end] is below the length [N] of the bounds array, and the search
    never reads that array past its end. *)
Theorem FindByUint_search_bounds (loc : Locator) (ip : Z) :
  Locator_wf loc -> 0 <= ip < 2 ^ 32 ->
  let b := Z.shiftr ip 24 in
  let N := Z.of_nat (length (indexData1 loc)) in
  search_bounds loc ip
  = Ret (elt (index loc) b, if b =? 255 then N - 1 else elt (index loc) (b + 1))
  /\ (b = 255 ->
      N - 1 < N
      /\ forall fuel i n,
           findIndexOffset fuel loc ip (elt (index loc) 255) (N - 1)
           = Some (Panic (IndexOutOfRange i n)) -> i < n /\ i < 0).
Proof.
  intros (Hlen & Hix & _ & _ & _ & HN & _) Hip b N.
  pose proof (top_octet ip Hip) as Hb. fold b in Hb.
  assert (HN' : N < 2 ^ 29) by exact HN.
  split.
  - unfold search_bounds. fold b. fold N.
    rewrite (int_small (N - 1)) by lia.
    destruct (b =? 255) eqn:E; cbn [negb obind].
    + apply Z.eqb_eq in E. rewrite idx_elt by (rewrite Hlen; lia). reflexivity.
    + apply Z.eqb_neq in E.
      assert (Hu : uint32 (b + 1) = b + 1) by (unfold uint32; apply Z.mod_small; lia).
      rewrite Hu, idx_elt by (rewrite Hlen; lia). cbn [obind].
      rewrite idx_elt by (rewrite Hlen; lia). reflexivity.
  - intros _. split; [lia|]. intros fuel i n Hres.
    assert (Hstart : 0 <= elt (index loc) 255).
    { rewrite Forall_forall in Hix. apply (Hix (elt (index loc) 255)). unfold elt.
      apply nth_In. rewrite Hlen. lia. }
    pose proof (findIndexOffset_never_past_end loc ip (elt (index loc) 255) (N - 1) fuel
                  ltac:(fold N; lia) Hstart ltac:(fold N; lia) i n Hres) as Hneg.
    split; [|exact Hneg].
    unfold findIndexOffset in Hres.
    destruct (findIndexOffset_loop fuel loc ip (elt (index loc) 255) (N - 1))
      as [[[s e]|p]|] eqn:Hloop; try discriminate.
    + unfold idx in Hres.
      destruct ((0 <=? e) && (e <? Z.of_nat (length (indexData1 loc))));
        [destruct (nth_error (indexData1 loc) (Z.to_nat e))|]; cbn [obind] in Hres.
      * destruct (z >=? ip); discriminate.
      * injection Hres as <- <-. lia.
      * injection Hres as <- <-. lia.
    + pose proof (findIndexOffset_loop_in_bounds loc ip ltac:(fold N; lia)
                    fuel (elt (index loc) 255) (N - 1) Hstart ltac:(fold N; lia)) as Hl.
      rewrite Hloop in Hl. contradiction.
Qed.

(** ** Bytes, slices and loops *)

Lemma byte_val_range (b : byte) : 0 <= byte_val b < 256.
Proof.
  unfold byte_val. pose proof (Byte.to_N_bounded b). lia.
Qed.

Lemma lor_below (n a b : Z) :
  0 <= n -> 0 <= a < 2 ^ n -> 0 <= b < 2 ^ n -> 0 <= Z.lor a b < 2 ^ n.
Proof.
  intros Hn Ha Hb. split; [apply Z.lor_nonneg; lia|].
  destruct (Z.eq_dec a 0) as [->|Ha0]; [rewrite Z.lor_0_l; lia|].
  destruct (Z.eq_dec b 0) as [->|Hb0]; [rewrite Z.lor_0_r; lia|].
  apply Z.log2_lt_pow2.
  - assert (0 <= Z.lor a b) by (apply Z.lor_nonneg; lia).
    assert (Z.lor a b <> 0) by (intros E; apply Z.lor_eq_0_iff in E; lia). lia.
  - rewrite Z.log2_lor by lia.
    apply Z.max_lub_lt; apply Z.log2_lt_pow2; lia.
Qed.

Lemma shifted_byte_below (b : byte) (k : Z) :
  0 <= k <= 24 -> 0 <= Z.shiftl (byte_val b) k < 2 ^ 32.
Proof.
  intros Hk. pose proof (byte_val_range b) as Hb.
  rewrite Z.shiftl_mul_pow2 by lia.
  assert (0 < 2 ^ k) by (apply Z.pow_pos_nonneg; lia).
  assert (2 ^ k <= 2 ^ 24) by (apply Z.pow_le_mono_r; lia).
  split; [nia|].
  replace (2 ^ 32) with (256 * 2 ^ 24) by reflexivity. nia.
Qed.

Lemma be_combine_range (b0 b1 b2 b3 : byte) : 0 <= be_combine b0 b1 b2 b3 < 2 ^ 32.
Proof.
  unfold be_combine.
  pose proof (shifted_byte_below b3 0 ltac:(lia)) as H3. rewrite Z.shiftl_0_r in H3.
  repeat apply lor_below; try lia; try exact H3; apply shifted_byte_below; lia.
Qed.

Lemma le_combine_range (b0 b1 b2 b3 : byte) : 0 <= le_combine b0 b1 b2 b3 < 2 ^ 32.
Proof.
  unfold le_combine.
  pose proof (shifted_byte_below b0 0 ltac:(lia)) as H0. rewrite Z.shiftl_0_r in H0.
  repeat apply lor_below; try lia; try exact H0; apply shifted_byte_below; lia.
Qed.

Lemma reslice_in_bounds {A : Type} (s : slice A) (lo hi : Z) :
  0 <= lo <= hi -> hi <= cap s ->
  reslice s lo hi = Ret (mkSlice (skipn (Z.to_nat lo) (backing s)) (Z.to_nat (hi - lo))).
Proof.
  intros H1 H2. unfold reslice.
  replace ((0 <=? lo) && (lo <=? hi) && (hi <=? cap s)) with true; [reflexivity|].
  symmetry. repeat (apply andb_true_intro; split); apply Z.leb_le; lia.
Qed.

Lemma reslice_out_of_bounds {A : Type} (s : slice A) (lo hi : Z) :
  ~ (0 <= lo <= hi /\ hi <= cap s) -> reslice s lo hi = Panic SliceBoundsOutOfRange.
Proof.
  intros H. unfold reslice.
  destruct ((0 <=? lo) && (lo <=? hi) && (hi <=? cap s)) eqn:E; [|reflexivity].
  apply andb_prop in E as [E E3]. apply andb_prop in E as [E1 E2].
  apply Z.leb_le in E1, E2, E3. lia.
Qed.

Lemma at_in_bounds (s : slice byte) (i : Z) :
  0 <= i < len s -> len s <= cap s ->
  at_ s i = Ret (nth (Z.to_nat i) (backing s) x00).
Proof.
  intros Hi Hwf. unfold at_.
  replace ((0 <=? i) && (i <? len s)) with true
    by (symmetry; apply andb_true_intro; split; [apply Z.leb_le|apply Z.ltb_lt]; lia).
  destruct (nth_error (backing s) (Z.to_nat i)) as [a|] eqn:E.
  - now rewrite (nth_error_nth _ _ x00 E).
  - apply nth_error_None in E. unfold cap in Hwf. lia.
Qed.

(** Reading four bytes that are there. *)
Lemma BigEndian_Uint32_four (bk : list byte) :
  (4 <= length bk)%nat ->
  BigEndian_Uint32 (mkSlice bk 4)
  = Ret (be_combine (nth 0 bk x00) (nth 1 bk x00) (nth 2 bk x00) (nth 3 bk x00)).
Proof.
  intros H. unfold BigEndian_Uint32.
  rewrite !at_in_bounds by (unfold len, cap; simpl; lia). reflexivity.
Qed.

Lemma LittleEndian_Uint32_four (bk : list byte) :
  (4 <= length bk)%nat ->
  LittleEndian_Uint32 (mkSlice bk 4)
  = Ret (le_combine (nth 0 bk x00) (nth 1 bk x00) (nth 2 bk x00) (nth 3 bk x00)).
Proof.
  intros H. unfold LittleEndian_Uint32.
  rewrite !at_in_bounds by (unfold len, cap; simpl; lia). reflexivity.
Qed.

Lemma length_set_nth {A : Type} (l : list A) (n : nat) (a : A) :
  length (set_nth l n a) = length l.
Proof.
  revert n. induction l as [|x l IH]; intros [|n]; simpl; auto.
Qed.

Lemma Forall_set_nth {A : Type} (P : A -> Prop) (l : list A) (n : nat) (a : A) :
  Forall P l -> P a -> Forall P (set_nth l n a).
Proof.
  intros Hl Ha. revert n. induction Hl as [|x l Hx Hl IH]; intros [|n]; simpl; auto.
Qed.

Lemma store_in_range {A : Type} (l : list A) (i : Z) (a : A) :
  0 <= i < Z.of_nat (length l) -> store l i a = Ret (set_nth l (Z.to_nat i) a).
Proof.
  intros H. unfold store.
  replace ((0 <=? i) && (i <? Z.of_nat (length l))) with true; [reflexivity|].
  symmetry. apply andb_true_intro; split; [apply Z.leb_le|apply Z.ltb_lt]; lia.
Qed.

(** A loop whose body keeps an invariant returns, and the invariant holds
    at the end. *)
Lemma for_from_returns {St : Type} (P : Z -> St -> Prop) (body : Z -> St -> outcome St) :
  forall (k : nat) (i : Z) (st : St),
    0 <= i -> i + Z.of_nat k < 2 ^ 63 ->
    (forall j st, i <= j < i + Z.of_nat k -> P j st ->
                  exists st', body j st = Ret st' /\ P (j + 1) st') ->
    P i st ->
    exists st', for_from k i body st = Ret st' /\ P (i + Z.of_nat k) st'.
Proof.
  induction k as [|k IH]; intros i st Hi Hk Hbody HP.
  - exists st. split; [reflexivity|]. now replace (i + Z.of_nat 0) with i by lia.
  - cbn [for_from].
    destruct (Hbody i st ltac:(lia) HP) as (st1 & -> & HP1). cbn [obind].
    rewrite int_small by lia.
    destruct (IH (i + 1) st1) as (st' & Hret & HP'); try lia; try exact HP1.
    + intros j st2 Hj. apply Hbody. lia.
    + exists st'. split; [exact Hret|].
      now replace (i + Z.of_nat (S k)) with (i + 1 + Z.of_nat k) by lia.
Qed.

(** A loop one of whose iterations panics whatever the state, panics. *)
Lemma for_from_panics {St : Type} (body : Z -> St -> outcome St) (j : Z) :
  (forall st, panics (body j st)) ->
  forall (k : nat) (i : Z) (st : St),
    0 <= i -> i + Z.of_nat k < 2 ^ 63 -> i <= j < i + Z.of_nat k ->
    panics (for_from k i body st).
Proof.
  intros Hj. induction k as [|k IH]; intros i st Hi Hk Hin; [lia|].
  cbn [for_from].
  destruct (body i st) as [st1|p] eqn:E; cbn [obind]; [|now exists p].
  rewrite int_small by lia.
  destruct (Z.eq_dec i j) as [->|Hne].
  - destruct (Hj st) as [p Hp]. congruence.
  - apply IH; lia.
Qed.

(** ** The decoder *)

Lemma init_index_body_returns (data : slice byte) (i : Z) (loc : Locator) :
  0 <= i < 256 -> 1028 <= cap data -> length (index loc) = 256%nat ->
  exists v, uint32_range v
            /\ init_index_body data i loc
               = Ret (with_index loc (set_nth (index loc) (Z.to_nat i) v)).
Proof.
  intros Hi Hcap Hlen. unfold init_index_body.
  rewrite (int_small (i * 4)), (int_small (4 + i * 4)), (int_small (4 + i * 4 + 4)) by lia.
  rewrite reslice_in_bounds by lia. cbn [obind].
  replace (Z.to_nat (4 + i * 4 + 4 - (4 + i * 4))) with 4%nat by lia.
  rewrite LittleEndian_Uint32_four
    by (rewrite length_skipn; unfold cap in Hcap; lia).
  cbn [obind]. rewrite store_in_range by (rewrite Hlen; lia). cbn [obind].
  eexists. split; [|reflexivity]. apply le_combine_range.
Qed.

Lemma init_index_body_panics (data : slice byte) (i : Z) (loc : Locator) :
  0 <= i < 256 -> cap data < 4 + i * 4 + 4 -> panics (init_index_body data i loc).
Proof.
  intros Hi Hcap. unfold init_index_body.
  rewrite (int_small (i * 4)), (int_small (4 + i * 4)), (int_small (4 + i * 4 + 4)) by lia.
  rewrite reslice_out_of_bounds by lia. cbn [obind]. now eexists.
Qed.

Lemma init_index_loop_returns (data : slice byte) (loc : Locator) :
  1028 <= cap data -> length (index loc) = 256%nat -> Forall uint32_range (index loc) ->
  exists ix, for_upto 256 (init_index_body data) loc = Ret (with_index loc ix)
             /\ length ix = 256%nat /\ Forall uint32_range ix.
Proof.
  intros Hcap Hlen Hall. unfold for_upto.
  destruct (for_from_returns
              (fun _ st => exists ix, st = with_index loc ix /\ length ix = 256%nat
                                      /\ Forall uint32_range ix)
              (init_index_body data) (Z.to_nat 256) 0 loc) as (st & Hret & ix & -> & H);
    try lia.
  - intros j st Hj (ix & -> & Hl & Hf).
    destruct (init_index_body_returns data j (with_index loc ix)) as (v & Hv & ->);
      try lia; [exact Hl|].
    eexists. split; [reflexivity|].
    exists (set_nth ix (Z.to_nat j) v). split; [reflexivity|].
    split; [now rewrite length_set_nth|now apply Forall_set_nth].
  - exists (index loc). destruct loc; auto.
  - exists ix. auto.
Qed.

Lemma init_index_loop_panics (data : slice byte) (loc : Locator) :
  cap data < 1028 -> panics (for_upto 256 (init_index_body data) loc).
Proof.
  intros Hcap. unfold for_upto.
  apply (for_from_panics (init_index_body data) 255); try lia.
  intros st. apply init_index_body_panics; lia.
Qed.

Lemma init_record_body_returns (data : slice byte) (i n : Z) (loc : Locator) :
  slice_wf data ->
  0 <= i < n -> 1028 + 8 * n <= len data -> n <= 2 ^ 29 ->
  Z.of_nat (length (indexData1 loc)) = n ->
  Z.of_nat (length (indexData2 loc)) = n ->
  Z.of_nat (length (indexData3 loc)) = n ->
  exists v1 v2 v3,
    uint32_range v1
    /\ init_record_body data i loc
       = Ret (mkLocator (textData loc)
                (set_nth (indexData1 loc) (Z.to_nat i) v1)
                (set_nth (indexData2 loc) (Z.to_nat i) v2)
                (set_nth (indexData3 loc) (Z.to_nat i) v3)
                (index loc)).
Proof.
  intros Hwf Hi Hlen Hbig H1 H2 H3. unfold init_record_body.
  assert (Hcap : len data <= cap data) by (unfold len, cap, slice_wf in *; lia).
  rewrite (int_small (4 + 1024)), (int_small (i * 8)), (int_small (4 + 1024 + i * 8))
    by lia.
  set (off := 4 + 1024 + i * 8).
  rewrite (int_small (off + 4)), (int_small (off + 5)), (int_small (off + 6)),
    (int_small (off + 7)) by (unfold off; lia).
  rewrite reslice_in_bounds by (unfold off; lia). cbn [obind].
  replace (Z.to_nat (off + 4 - off)) with 4%nat by lia.
  rewrite BigEndian_Uint32_four
    by (rewrite length_skipn; unfold cap, off in *; lia).
  cbn [obind]. rewrite store_in_range by lia. cbn [obind].
  rewrite !at_in_bounds by (unfold off; lia). cbn [obind].
  unfold with_indexData1, with_indexData2, with_indexData3.
  cbn [textData indexData1 indexData2 indexData3 index].
  rewrite store_in_range by lia. cbn [obind].
  cbn [textData indexData1 indexData2 indexData3 index].
  rewrite store_in_range by lia. cbn [obind].
  do 3 eexists. split; [apply be_combine_range|]. reflexivity.
Qed.

Lemma init_record_loop_returns (data : slice byte) (n : Z) (loc : Locator) :
  slice_wf data ->
  0 <= n -> (0 < n -> 1028 + 8 * n <= len data) -> n <= 2 ^ 29 ->
  Z.of_nat (length (indexData1 loc)) = n ->
  Z.of_nat (length (indexData2 loc)) = n ->
  Z.of_nat (length (indexData3 loc)) = n ->
  Forall uint32_range (indexData1 loc) ->
  exists d1 d2 d3,
    for_upto n (init_record_body data) loc
    = Ret (mkLocator (textData loc) d1 d2 d3 (index loc))
    /\ Z.of_nat (length d1) = n /\ Z.of_nat (length d2) = n /\ Z.of_nat (length d3) = n
    /\ Forall uint32_range d1.
Proof.
  intros Hwf Hn Hlen Hbig H1 H2 H3 Hall. unfold for_upto.
  destruct (for_from_returns
              (fun _ st => exists d1 d2 d3,
                   st = mkLocator (textData loc) d1 d2 d3 (index loc)
                   /\ Z.of_nat (length d1) = n /\ Z.of_nat (length d2) = n
                   /\ Z.of_nat (length d3) = n /\ Forall uint32_range d1)
              (init_record_body data) (Z.to_nat n) 0 loc)
    as (st & Hret & d1 & d2 & d3 & -> & H); try (unfold len in *; lia).
  - intros j st Hj (d1 & d2 & d3 & -> & Hd1 & Hd2 & Hd3 & Hf).
    destruct (init_record_body_returns data j n
                (mkLocator (textData loc) d1 d2 d3 (index loc)))
      as (v1 & v2 & v3 & Hv1 & ->); try assumption; try lia.
    eexists. split; [reflexivity|]. cbn [textData indexData1 indexData2 indexData3 index].
    do 3 eexists. split; [reflexivity|].
    rewrite !length_set_nth. repeat split; try assumption.
    now apply Forall_set_nth.
  - exists (indexData1 loc), (indexData2 loc), (indexData3 loc). destruct loc; auto.
  - exists d1, d2, d3. split; [exact Hret|exact H].
Qed.

Lemma textoff_quot (t : Z) :
  (Z.quot (t - 2052) 8 < 0 <-> t < 2045)
  /\ (0 < Z.quot (t - 2052) 8 -> 8 * Z.quot (t - 2052) 8 <= t - 2052)
  /\ (t < 2 ^ 32 -> Z.quot (t - 2052) 8 < 2 ^ 29).
Proof.
  pose proof (Z.quot_rem' (t - 2052) 8) as E.
  pose proof (Z.rem_bound_pos (t - 2052) 8).
  pose proof (Z.rem_bound_pos_neg (t - 2052) 8).
  destruct (Z_lt_le_dec (t - 2052) 0); lia.
Qed.

Lemma header_textoff_range (data : slice byte) : uint32_range (header_textoff data).
Proof. apply be_combine_range. Qed.

Lemma make_nonneg {A : Type} (z : A) (n : Z) :
  0 <= n -> make z n = Ret (repeat z (Z.to_nat n)).
Proof.
  intros H. unfold make. destruct (n <? 0) eqn:E; [|reflexivity].
  apply Z.ltb_lt in E. lia.
Qed.

Lemma make_negative {A : Type} (z : A) (n : Z) :
  n < 0 -> make z n = Panic MakesliceLenOutOfRange.
Proof.
  intros H. unfold make. destruct (n <? 0) eqn:E; [reflexivity|].
  apply Z.ltb_ge in E. lia.
Qed.

Lemma decodable_dec (data : slice byte) : {decodable data} + {~ decodable data}.
Proof.
  unfold decodable.
  destruct (Z_le_dec 1028 (cap data)), (Z_le_dec 2045 (header_textoff data)),
    (Z_le_dec (header_textoff data) (len data + 1024)); (left; lia) || (right; lia).
Qed.

(** What [init] does with every buffer. *)
Lemma init_outcome (loc : Locator) (data : slice byte) :
  slice_wf data ->
  (decodable data ->
   exists loc', init loc data = Ret loc' /\ Locator_wf loc'
                /\ Z.of_nat (length (indexData1 loc'))
                   = Z.quot (header_textoff data - 2052) 8
                /\ textData loc'
                   = mkSlice (skipn (Z.to_nat (header_textoff data - 1024)) (backing data))
                       (Z.to_nat (len data - (header_textoff data - 1024))))
  /\ (~ decodable data -> panics (init loc data)).
Proof.
  intros Hwf.
  assert (Hlc : len data <= cap data) by (unfold len, cap, slice_wf in *; lia).
  pose proof (header_textoff_range data) as Ht.
  pose proof (textoff_quot (header_textoff data)) as (Hq1 & Hq2 & Hq3).
  unfold uint32_range in Ht.
  unfold init, reslice_to, reslice_from.
  destruct (Z_lt_le_dec (cap data) 4) as [Hc4|Hc4].
  { split; [intros (H & _); lia|intros _].
    rewrite reslice_out_of_bounds by lia. cbn [obind]. now eexists. }
  rewrite reslice_in_bounds by lia. cbn [obind].
  change (Z.to_nat (4 - 0)) with 4%nat. change (Z.to_nat 0) with 0%nat.
  cbn [skipn]. rewrite BigEndian_Uint32_four by (unfold cap in Hc4; lia).
  cbn [obind]. fold (header_textoff data). set (t := header_textoff data) in *.
  rewrite (int_small (t - 1024)) by lia.
  destruct (Z_lt_le_dec t 1024) as [Ht1|Ht1].
  { split; [intros (_ & H & _); lia|intros _].
    rewrite reslice_out_of_bounds by lia. cbn [obind]. now eexists. }
  destruct (Z_lt_le_dec (len data + 1024) t) as [Ht2|Ht2].
  { split; [intros (_ & _ & H); lia|intros _].
    rewrite reslice_out_of_bounds by lia. cbn [obind]. now eexists. }
  rewrite reslice_in_bounds by lia. cbn [obind].
  rewrite make_nonneg by lia. cbn [obind].
  destruct (Z_lt_le_dec (cap data) 1028) as [Hc|Hc].
  { split; [intros (H & _); lia|intros _].
    match goal with |- panics (obind (for_upto 256 ?b ?l) _) =>
      destruct (init_index_loop_panics data l Hc) as [p ->] end.
    cbn [obind]. now eexists. }
  match goal with |- context [for_upto 256 (init_index_body data) ?l] =>
    destruct (init_index_loop_returns data l Hc) as (ix & -> & Hix1 & Hix2) end.
  { cbn [with_index index]. apply repeat_length. }
  { cbn [with_index index]. apply Forall_forall. intros v Hv.
    apply repeat_spec in Hv. subst v. unfold uint32_range. lia. }
  cbn [obind].
  rewrite (int_small (t - 4)), (int_small (t - 4 - 1024)),
    (int_small (t - 4 - 1024 - 1024)) by lia.
  replace (t - 4 - 1024 - 1024) with (t - 2052) by lia.
  set (n := Z.quot (t - 2052) 8) in *.
  destruct (Z_lt_le_dec n 0) as [Hn|Hn].
  { split; [intros (_ & H & _); lia|intros _].
    rewrite make_negative by lia. cbn [obind]. now eexists. }
  rewrite !make_nonneg by lia. cbn [obind].
  split; [intros _|intros H; exfalso; apply H; unfold decodable; fold t; lia].
  match goal with |- context [for_upto n (init_record_body data) ?l] =>
    destruct (init_record_loop_returns data n l Hwf Hn) as (d1 & d2 & d3 & -> & H1 & H2 & H3 & Hf)
  end; try (cbn; rewrite repeat_length; lia); try lia.
  { cbn. apply Forall_forall. intros v Hv.
    apply repeat_spec in Hv. subst v. unfold uint32_range. lia. }
  eexists. split; [reflexivity|].
  cbn [textData indexData1 indexData2 indexData3 index with_index with_indexData1
         with_indexData2 with_indexData3 with_textData].
  split; [|split; [exact H1|reflexivity]].
  unfold Locator_wf.
  cbn [textData indexData1 indexData2 indexData3 index].
  repeat split; try assumption; try lia.
  unfold slice_wf. cbn [slen backing]. rewrite length_skipn.
  unfold len, slice_wf in *. lia.
Qed.

(** C2, in the form that holds.  Decoding panics, with a Go run-time panic
    that reaches the caller of [NewLocatorWithData] and [NewLocator], for
    exactly the buffers that have no room for the 1028 bytes of length word
    and prefix index, or whose [textoff] is below 2045 (so that
    [textoff-1024] or the record count [N] is negative), or whose
    [textoff-1024] lies beyond the buffer; no error value is returned, no
    Locator is produced and the registry's three pointers stay as they are.
    Every other buffer decodes. *)
Theorem NewLocatorWithData_panics_iff (data : slice byte) (r : registry) :
  slice_wf data ->
  let malformed :=
    cap data < 1028 \/ header_textoff data < 2045
    \/ len data + 1024 < header_textoff data in
  (malformed <-> panics (fst (NewLocatorWithData data r)))
  /\ (malformed ->
      exists p,
        init zero_Locator data = Panic p
        /\ NewLocatorWithData data r = (Panic p, with_heap r (heap r ++ [zero_Locator]))
        /\ (forall ReadFile dataFile,
               ReadFile dataFile = (data, None) ->
               NewLocator ReadFile dataFile r
               = (Panic p, with_heap r (heap r ++ [zero_Locator]))))
  /\ (~ malformed -> returns (fst (NewLocatorWithData data r))).
Proof.
  intros Hwf malformed.
  destruct (init_outcome zero_Locator data Hwf) as [Hok Hbad].
  assert (Hiff : malformed <-> ~ decodable data) by (unfold malformed, decodable; lia).
  assert (Hpanic : malformed ->
                   exists p, init zero_Locator data = Panic p
                             /\ NewLocatorWithData data r
                                = (Panic p, with_heap r (heap r ++ [zero_Locator]))).
  { intros Hm. destruct (Hbad (proj1 Hiff Hm)) as [p Hp]. exists p.
    split; [exact Hp|]. unfold NewLocatorWithData. now rewrite Hp. }
  assert (Hret : ~ malformed -> returns (fst (NewLocatorWithData data r))).
  { intros Hm. destruct (decodable_dec data) as [Hd|Hd]; [|tauto].
    destruct (Hok Hd) as (loc' & Hinit & _).
    unfold NewLocatorWithData. rewrite Hinit. now eexists. }
  split; [|split].
  - split.
    + intros Hm. destruct (Hpanic Hm) as (p & _ & E). rewrite E. now exists p.
    + intros [p Hp]. destruct (decodable_dec data) as [Hd|Hd]; [|tauto].
      destruct (Hret (fun Hm => proj1 Hiff Hm Hd)) as [a Ha]. congruence.
  - intros Hm. destruct (Hpanic Hm) as (p & Hinit & E). exists p.
    split; [exact Hinit|]. split; [exact E|].
    intros ReadFile dataFile Hread. unfold NewLocator. rewrite Hread.
    unfold mbind. now rewrite E.
  - exact Hret.
Qed.

Lemma NewLocatorWithData_panics_iff_witness :
  panics (fst (NewLocatorWithData (slice_of (be32 2044 ++ repeat x00 1024)) empty_registry)).
Proof.
  apply (NewLocatorWithData_panics_iff (slice_of (be32 2044 ++ repeat x00 1024))
           empty_registry).
  - unfold slice_wf, slice_of. simpl. lia.
  - right. left. vm_compute. reflexivity.
Defined.

(** C2 as specified (a DecodeError is returned, no Locator is produced)
    does not hold: reading the empty file, [NewLocator] panics instead of
    returning an error; and the 1028-byte file whose [textoff] of 2048 is
    four short of the header sizes decodes to a Locator without records. *)
Lemma decoding_fails_by_panic :
  NewLocator sample_ReadFile "truncated.dat" empty_registry
  = (Panic SliceBoundsOutOfRange, mkRegistry [zero_Locator] None None None)
  /\ ~ (exists e, fst (NewLocator sample_ReadFile "truncated.dat" empty_registry)
                  = Ret (None, Some e))
  /\ header_textoff (slice_of short_db) = 2048
  /\ len (slice_of short_db) = 1028
  /\ NewLocator sample_ReadFile "short.dat" empty_registry
     = (Ret (Some 0%nat, None),
        mkRegistry [mkLocator (mkSlice (skipn 1024 short_db) 4) [] [] []
                      (repeat 0 256)] None None None).
Proof.
  split; [vm_compute; reflexivity|].
  split; [intros [e He]; vm_compute in He; discriminate|].
  split; [vm_compute; reflexivity|].
  split; vm_compute; reflexivity.
Qed.

(** ** The registry *)

Section Registry.
Variable ReadFile : string -> slice byte * option error.

(** [Reload] of a file that cannot be read. *)
Lemma Reload_read_error (dataFile : string) (r : registry) (d : slice byte) (e : error) :
  ReadFile dataFile = (d, Some e) ->
  Reload ReadFile dataFile r = (Ret (Some e), mkRegistry (heap r) None (newdata r) None).
Proof.
  intros Hread. unfold Reload, NewLocator. rewrite Hread. reflexivity.
Qed.

(** [Reload] of a file that [init] panics on. *)
Lemma Reload_decode_panic (dataFile : string) (r : registry) (d : slice byte) (p : panic) :
  ReadFile dataFile = (d, None) -> init zero_Locator d = Panic p ->
  Reload ReadFile dataFile r = (Panic p, with_heap r (heap r ++ [zero_Locator])).
Proof.
  intros Hread Hinit. unfold Reload, NewLocator, mbind, NewLocatorWithData.
  rewrite Hread, Hinit. reflexivity.
Qed.

(** [Reload] of a file that decodes. *)
Lemma Reload_success (dataFile : string) (r : registry) (d : slice byte) (l : Locator) :
  ReadFile dataFile = (d, None) -> init zero_Locator d = Ret l ->
  Reload ReadFile dataFile r
  = (Ret None,
     mkRegistry (heap r ++ [l]) (Some (length (heap r))) (newdata r)
       (Some (length (heap r)))).
Proof.
  intros Hread Hinit. unfold Reload, NewLocator, mbind, NewLocatorWithData.
  rewrite Hread, Hinit. reflexivity.
Qed.

Lemma Reload_cases (dataFile : string) (r : registry) :
  (exists e, Reload ReadFile dataFile r
             = (Ret (Some e), mkRegistry (heap r) None (newdata r) None))
  \/ (exists p, Reload ReadFile dataFile r
                = (Panic p, with_heap r (heap r ++ [zero_Locator])))
  \/ (exists l, Reload ReadFile dataFile r
                = (Ret None,
                   mkRegistry (heap r ++ [l]) (Some (length (heap r))) (newdata r)
                     (Some (length (heap r))))).
Proof.
  destruct (ReadFile dataFile) as [d [e|]] eqn:Hread.
  - left. exists e. now apply Reload_read_error with d.
  - destruct (init zero_Locator d) as [l|p] eqn:Hinit.
    + right. right. exists l. now apply Reload_success with d.
    + right. left. exists p. now apply Reload_decode_panic with d.
Qed.

Lemma Init_cases (dataFile : string) (r : registry) :
  snd (Init ReadFile dataFile r) = r
  \/ snd (Init ReadFile dataFile r) = with_heap r (heap r ++ [zero_Locator])
  \/ (std r = None
      /\ snd (Init ReadFile dataFile r) = mkRegistry (heap r) None (olddata r) (newdata r))
  \/ (exists l, snd (Init ReadFile dataFile r)
                = mkRegistry (heap r ++ [l]) (Some (length (heap r)))
                    (Some (length (heap r))) (Some (length (heap r)))).
Proof.
  unfold Init, mbind, get, NewLocator.
  destruct (std r) as [a|] eqn:Hstd; [left; reflexivity|].
  destruct (ReadFile dataFile) as [d [e|]].
  - right. right. left. split; reflexivity.
  - unfold mbind, NewLocatorWithData.
    destruct (init zero_Locator d) as [l|p].
    + right. right. right. exists l. reflexivity.
    + right. left. reflexivity.
Qed.

Lemma InitWithData_cases (data : slice byte) (r : registry) :
  snd (InitWithData data r) = r
  \/ snd (InitWithData data r) = with_heap r (heap r ++ [zero_Locator])
  \/ (exists l, std r = None
                /\ snd (InitWithData data r)
                   = mkRegistry (heap r ++ [l]) (Some (length (heap r)))
                       (olddata r) (newdata r)).
Proof.
  unfold InitWithData, mbind, get, NewLocatorWithData.
  destruct (std r) as [a|] eqn:Hstd; [left; reflexivity|].
  destruct (init zero_Locator data) as [l|p].
  - right. right. exists l. split; reflexivity.
  - right. left. reflexivity.
Qed.

(** In every registry the process can be in, the active Locator is the one
    in [newdata], unless [newdata] is nil ([InitWithData] installed the
    active Locator and no [Reload] has succeeded since); and the pointers
    point into the heap. *)
Lemma reachable_slots (r : registry) :
  reachable ReadFile r ->
  (std r = newdata r \/ newdata r = None)
  /\ forall p, referenced r p -> (p < length (heap r))%nat.
Proof.
  unfold referenced.
  induction 1 as [|r r' Hr [IH Hv] Hstep].
  { split; [left; reflexivity|]. simpl. intros p [H|[H|H]]; discriminate. }
  destruct Hstep as [dataFile r|dataFile r|data r].
  - destruct (Init_cases dataFile r) as [->|[->|[(Hs & ->)|(l & ->)]]];
      cbn [with_heap std olddata newdata heap].
    + split; assumption.
    + split; [assumption|]. intros p Hp. rewrite length_app. specialize (Hv p Hp). lia.
    + split; [destruct IH; [left; congruence|right; assumption]|].
      intros p [H|[H|H]]; [discriminate|apply Hv; auto|apply Hv; auto].
    + split; [left; reflexivity|]. rewrite length_app. simpl.
      intros p [H|[H|H]]; injection H as <-; lia.
  - destruct (Reload_cases dataFile r) as [(e & ->)|[(p & ->)|(l & ->)]];
      cbn [snd with_heap std olddata newdata heap].
    + split; [left; reflexivity|].
      intros p [H|[H|H]]; [discriminate|apply Hv; auto|discriminate].
    + split; [assumption|]. intros q Hq. rewrite length_app. specialize (Hv q Hq). lia.
    + split; [left; reflexivity|]. rewrite length_app. simpl.
      intros p [H|[H|H]]; try (injection H as <-; lia).
      assert (p < length (heap r))%nat by (apply Hv; auto). lia.
  - destruct (InitWithData_cases data r) as [->|[->|(l & Hs & ->)]];
      cbn [with_heap std olddata newdata heap].
    + split; assumption.
    + split; [assumption|]. intros p Hp. rewrite length_app. specialize (Hv p Hp). lia.
    + split; [right; destruct IH; congruence|]. rewrite length_app. simpl.
      intros p [H|[H|H]]; [injection H as <-; lia| |];
        (assert (p < length (heap r))%nat by (apply Hv; auto); lia).
Qed.

(** The two-slot scheme: never more than two Locators are referenced. *)
Lemma reachable_two_generations (r : registry) (p q s : nat) :
  reachable ReadFile r ->
  referenced r p -> referenced r q -> referenced r s -> p = q \/ q = s \/ p = s.
Proof.
  intros Hr. destruct (reachable_slots r Hr) as [Hslots _].
  unfold referenced. intros Hp Hq Hs.
  destruct Hslots as [E|E]; rewrite E in *;
    destruct Hp as [Hp|[Hp|Hp]], Hq as [Hq|[Hq|Hq]], Hs as [Hs|[Hs|Hs]];
    try discriminate; try (left; congruence); try (right; left; congruence);
    try (right; right; congruence).
Qed.

(** A successful [Reload] installs the new Locator; when the active one
    was in [newdata], which is so after [Init] and after every [Reload], it
    is kept in [olddata]. *)
Lemma Reload_keeps_previous (dataFile : string) (r : registry) (d : slice byte)
      (l : Locator) :
  ReadFile dataFile = (d, None) -> init zero_Locator d = Ret l ->
  let r' := snd (Reload ReadFile dataFile r) in
  fst (Reload ReadFile dataFile r) = Ret None
  /\ std r' = Some (length (heap r))
  /\ deref r' (std r') = Some l
  /\ olddata r' = newdata r
  /\ (std r = newdata r -> olddata r' = std r).
Proof.
  intros Hread Hinit r'. subst r'. rewrite (Reload_success dataFile r d l Hread Hinit).
  cbn [fst snd std olddata newdata heap deref].
  repeat split; auto.
  rewrite nth_error_app2, Nat.sub_diag by lia. reflexivity.
Qed.

(** A second successful [Reload] drops it. *)
Lemma Reload_twice_evicts (f1 f2 : string) (r : registry) (d1 d2 : slice byte)
      (l1 l2 : Locator) (p : nat) :
  ReadFile f1 = (d1, None) -> init zero_Locator d1 = Ret l1 ->
  ReadFile f2 = (d2, None) -> init zero_Locator d2 = Ret l2 ->
  (p < length (heap r))%nat ->
  let r1 := snd (Reload ReadFile f1 r) in
  let r2 := snd (Reload ReadFile f2 r1) in
  ~ referenced r2 p /\ olddata r2 = std r1.
Proof.
  intros H1 I1 H2 I2 Hp r1 r2. subst r2 r1.
  rewrite (Reload_success f1 r d1 l1 H1 I1). cbn [snd].
  rewrite (Reload_success f2 _ d2 l2 H2 I2). cbn [snd].
  unfold referenced. cbn [std olddata newdata heap]. rewrite length_app. simpl.
  split; [|reflexivity]. intros [H|[H|H]]; injection H as H; lia.
Qed.
End Registry.

(** C1.  A failed [Reload] is to return its error and leave the active
    Locator in place.  [Reload] does not: after [Init] has installed the
    Locator of [ip.dat], a [Reload] of a file that cannot be read returns the
    error, and leaves [std] and [newdata] nil, the Locator that was active in
    [olddata] only; the lookup that was answered before panics on the nil
    receiver after. *)
Theorem Reload_error_drops_active_Locator :
  let r1 := snd (Init sample_ReadFile "ip.dat" empty_registry) in
  let r2 := snd (Reload sample_ReadFile "missing.dat" r1) in
  r1 = mkRegistry [sample_Locator] (Some 0%nat) (Some 0%nat) (Some 0%nat)
  /\ FindByUint 2 r1 (2 ^ 24 + 5)
     = Some (Ret (mkLocationInfo "US" "CA" "Los Angeles" "N/A" 0 0 0 0 0))
  /\ fst (Reload sample_ReadFile "missing.dat" r1)
     = Ret (Some (ErrOS "no such file or directory"))
  /\ r2 = mkRegistry [sample_Locator] None (Some 0%nat) None
  /\ FindByUint 2 r2 (2 ^ 24 + 5) = Some (Panic NilPointerDereference).
Proof. vm_compute. repeat split. Qed.

(** When it is [init] that fails, [Reload] panics with it and the three
    pointers stay as they are. *)
Lemma Reload_decode_panic_keeps_registry
      (ReadFile : string -> slice byte * option error) (dataFile : string)
      (r : registry) (d : slice byte) :
  ReadFile dataFile = (d, None) -> panics (init zero_Locator d) ->
  panics (fst (Reload ReadFile dataFile r))
  /\ std (snd (Reload ReadFile dataFile r)) = std r
  /\ olddata (snd (Reload ReadFile dataFile r)) = olddata r
  /\ newdata (snd (Reload ReadFile dataFile r)) = newdata r.
Proof.
  intros Hread [p Hp]. rewrite (Reload_decode_panic ReadFile dataFile r d p Hread Hp).
  repeat split. now exists p.
Qed.

(** C6.  A successful [Reload] is to keep the Locator that was active for
    one more reload.  After [InitWithData] it does not: the Locator that
    [InitWithData] made active is in neither [olddata] nor [newdata], and the
    first successful [Reload] leaves nothing pointing to it. *)
Theorem Reload_after_InitWithData_drops_previous :
  let r1 := snd (InitWithData (slice_of sample_db) empty_registry) in
  let r2 := snd (Reload sample_ReadFile "empty.dat" r1) in
  r1 = mkRegistry [sample_Locator] (Some 0%nat) None None
  /\ fst (Reload sample_ReadFile "empty.dat" r1) = Ret None
  /\ std r2 = Some 1%nat /\ olddata r2 = None /\ newdata r2 = Some 1%nat
  /\ ~ referenced r2 0.
Proof.
  vm_compute. repeat split. intros [H|[H|H]]; discriminate.
Qed.

(** ** Lookup by text *)

Lemma BigEndian_Uint32_nil : BigEndian_Uint32 nil_slice = Panic (IndexOutOfRange 3 0).
Proof. reflexivity. Qed.

(** C10.  When the address parser accepts a text whose address has no
    4-byte form ([To4] is nil), as it does for "::1", [Find] panics, reading
    byte 3 of the nil slice, whatever the Locator; it returns neither the
    invalid-address error nor a record.  [Find] returns the invalid-address
    error for exactly the texts the parser rejects. *)
Theorem Find_panics_without_IPv4_form
        (ParseIP : string -> IP) (fuel : nat) (loc : option Locator)
        (ipstr : string) (ip : slice byte) :
  ParseIP ipstr = Some ip -> To4 ip = None ->
  Locator_Find ParseIP fuel loc ipstr = Some (Panic (IndexOutOfRange 3 0))
  /\ forall s,
       Locator_Find ParseIP fuel loc s = Some (Ret (None, Some ErrInvalidIp))
       <-> ParseIP s = None.
Proof.
  intros Hparse Hto4. split.
  - unfold Locator_Find. rewrite Hparse, Hto4. reflexivity.
  - intros s. unfold Locator_Find. split.
    + destruct (ParseIP s) as [ip'|]; [|reflexivity].
      destruct (BigEndian_Uint32 (bytes_of_IP (To4 ip'))) as [u|p]; [|discriminate].
      destruct (Locator_FindByUint fuel loc u) as [[info|p]|]; discriminate.
    + intros ->. reflexivity.
Qed.

Lemma Find_panics_without_IPv4_form_witness :
  Locator_Find sample_ParseIP 2 (Some sample_Locator) "::1"
  = Some (Panic (IndexOutOfRange 3 0))
  /\ forall s,
       Locator_Find sample_ParseIP 2 (Some sample_Locator) s
       = Some (Ret (None, Some ErrInvalidIp))
       <-> sample_ParseIP s = None.
Proof.
  apply (Find_panics_without_IPv4_form sample_ParseIP 2 (Some sample_Locator) "::1"
           (slice_of ipv6_loopback)); reflexivity.
Defined.

Example Find_dotted_quad :
  Locator_Find sample_ParseIP 2 (Some sample_Locator) "1.0.0.7"
  = Some (Ret (Some (mkLocationInfo "US" "CA" "Los Angeles" "N/A" 0 0 0 0 0), None)).
Proof. vm_compute. reflexivity. Qed.

(** ** The sample database *)

Example init_sample_db : init zero_Locator (slice_of sample_db) = Ret sample_Locator.
Proof. vm_compute. reflexivity. Qed.

Lemma sample_db_decodable : decodable (slice_of sample_db).
Proof.
  unfold decodable. replace (header_textoff (slice_of sample_db)) with 2076
    by (vm_compute; reflexivity).
  replace (cap (slice_of sample_db)) with 1097 by (vm_compute; reflexivity).
  replace (len (slice_of sample_db)) with 1097 by (vm_compute; reflexivity).
  lia.
Qed.

Lemma sample_Locator_wf : Locator_wf sample_Locator.
Proof.
  assert (Hwf : slice_wf (slice_of sample_db)) by (unfold slice_wf, slice_of; simpl; lia).
  destruct (init_outcome zero_Locator (slice_of sample_db) Hwf) as [Hok _].
  destruct (Hok sample_db_decodable) as (loc' & Hinit & Hloc & _).
  rewrite init_sample_db in Hinit. injection Hinit as <-. exact Hloc.
Qed.

Lemma FindByUint_search_bounds_witness :
  search_bounds sample_Locator (2 ^ 32 - 1) = Ret (2, 2)
  /\ search_bounds sample_Locator (2 ^ 24 + 5) = Ret (0, 2).
Proof.
  split.
  - exact (proj1 (FindByUint_search_bounds sample_Locator (2 ^ 32 - 1)
                    sample_Locator_wf ltac:(lia))).
  - exact (proj1 (FindByUint_search_bounds sample_Locator (2 ^ 24 + 5)
                    sample_Locator_wf ltac:(lia))).
Defined.

(** * More of the package *)

(** ** What [init] stores *)

Lemma tabulate_length (n : nat) (f : Z -> Z) : length (tabulate n f) = n.
Proof. unfold tabulate. now rewrite length_map, length_seq. Qed.

Lemma tabulate_S (n : nat) (f : Z -> Z) :
  tabulate (S n) f = tabulate n f ++ [f (Z.of_nat n)].
Proof. unfold tabulate. now rewrite seq_S, map_app. Qed.

Lemma tabulate_elt (n : nat) (f : Z -> Z) (i : Z) :
  0 <= i < Z.of_nat n -> elt (tabulate n f) i = f i.
Proof.
  intros Hi. unfold elt, tabulate.
  rewrite (nth_indep _ 0 (f (Z.of_nat 0))) by (rewrite length_map, length_seq; lia).
  rewrite (map_nth (fun k => f (Z.of_nat k))), seq_nth by lia.
  simpl. f_equal. lia.
Qed.

Lemma Forall_tabulate (P : Z -> Prop) (n : nat) (f : Z -> Z) :
  (forall i, 0 <= i < Z.of_nat n -> P (f i)) -> Forall P (tabulate n f).
Proof.
  intros H. unfold tabulate. apply Forall_forall. intros v Hv.
  apply in_map_iff in Hv as (k & <- & Hk). apply in_seq in Hk. apply H. lia.
Qed.

(** Storing at the first slot still holding the zero value. *)
Lemma set_nth_fill (l : list Z) (k : nat) (v : Z) :
  set_nth (l ++ repeat 0 (S k)) (length l) v = (l ++ [v]) ++ repeat 0 k.
Proof.
  induction l as [|x l IH]; [reflexivity|].
  cbn [app length set_nth]. now rewrite IH.
Qed.

Lemma fill_step (n j : nat) (f : Z -> Z) :
  (j < n)%nat ->
  set_nth (tabulate j f ++ repeat 0 (n - j)) j (f (Z.of_nat j))
  = tabulate (S j) f ++ repeat 0 (n - S j).
Proof.
  intros Hj. replace (n - j)%nat with (S (n - S j)) by lia.
  pose proof (set_nth_fill (tabulate j f) (n - S j) (f (Z.of_nat j))) as E.
  rewrite tabulate_length in E. rewrite E, tabulate_S. reflexivity.
Qed.

Lemma byte_at_skipn (data : slice byte) (off : Z) (k : nat) :
  0 <= off ->
  nth k (skipn (Z.to_nat off) (backing data)) x00 = byte_at data (off + Z.of_nat k).
Proof.
  intros H. unfold byte_at. rewrite nth_skipn. f_equal. lia.
Qed.

Lemma le_word_at (data : slice byte) (off : Z) :
  0 <= off ->
  le_combine (nth 0 (skipn (Z.to_nat off) (backing data)) x00)
             (nth 1 (skipn (Z.to_nat off) (backing data)) x00)
             (nth 2 (skipn (Z.to_nat off) (backing data)) x00)
             (nth 3 (skipn (Z.to_nat off) (backing data)) x00)
  = le_combine (byte_at data off) (byte_at data (off + 1))
               (byte_at data (off + 2)) (byte_at data (off + 3)).
Proof.
  intros H. rewrite !byte_at_skipn by exact H.
  change (Z.of_nat 0) with 0. change (Z.of_nat 1) with 1.
  change (Z.of_nat 2) with 2. change (Z.of_nat 3) with 3.
  now rewrite Z.add_0_r.
Qed.

Lemma be_word_at (data : slice byte) (off : Z) :
  0 <= off ->
  be_combine (nth 0 (skipn (Z.to_nat off) (backing data)) x00)
             (nth 1 (skipn (Z.to_nat off) (backing data)) x00)
             (nth 2 (skipn (Z.to_nat off) (backing data)) x00)
             (nth 3 (skipn (Z.to_nat off) (backing data)) x00)
  = be_combine (byte_at data off) (byte_at data (off + 1))
               (byte_at data (off + 2)) (byte_at data (off + 3)).
Proof.
  intros H. rewrite !byte_at_skipn by exact H.
  change (Z.of_nat 0) with 0. change (Z.of_nat 1) with 1.
  change (Z.of_nat 2) with 2. change (Z.of_nat 3) with 3.
  now rewrite Z.add_0_r.
Qed.

Lemma init_index_body_stores (data : slice byte) (i : Z) (loc : Locator) :
  0 <= i < 256 -> 1028 <= cap data -> length (index loc) = 256%nat ->
  init_index_body data i loc
  = Ret (with_index loc (set_nth (index loc) (Z.to_nat i) (prefix_entry data i))).
Proof.
  intros Hi Hcap Hlen. unfold init_index_body.
  rewrite (int_small (i * 4)), (int_small (4 + i * 4)), (int_small (4 + i * 4 + 4)) by lia.
  rewrite reslice_in_bounds by lia. cbn [obind].
  replace (Z.to_nat (4 + i * 4 + 4 - (4 + i * 4))) with 4%nat by lia.
  rewrite LittleEndian_Uint32_four
    by (rewrite length_skipn; unfold cap in Hcap; lia).
  cbn [obind]. rewrite store_in_range by (rewrite Hlen; lia). cbn [obind].
  rewrite le_word_at by lia. reflexivity.
Qed.

Lemma init_index_loop_stores (data : slice byte) (loc : Locator) :
  1028 <= cap data ->
  for_upto 256 (init_index_body data) (with_index loc (repeat 0 256))
  = Ret (with_index loc (tabulate 256 (prefix_entry data))).
Proof.
  intros Hcap. unfold for_upto.
  destruct (for_from_returns
              (fun j st => st = with_index loc
                                  (tabulate (Z.to_nat j) (prefix_entry data)
                                   ++ repeat 0 (256 - Z.to_nat j)))
              (init_index_body data) (Z.to_nat 256) 0
              (with_index loc (repeat 0 256))) as (st & Hret & Hst); try lia.
  - intros j st Hj ->.
    rewrite init_index_body_stores;
      [|lia|lia|cbn [with_index index];
                rewrite length_app, tabulate_length, repeat_length; lia].
    eexists. split; [reflexivity|].
    unfold with_index. cbn [index textData indexData1 indexData2 indexData3]. f_equal.
    replace (prefix_entry data j) with (prefix_entry data (Z.of_nat (Z.to_nat j)))
      by (f_equal; lia).
    rewrite fill_step by lia. do 2 f_equal; lia.
  - reflexivity.
  - rewrite Hret, Hst.
    replace (Z.to_nat (0 + Z.of_nat (Z.to_nat 256))) with 256%nat by lia.
    change (256 - 256)%nat with 0%nat. cbn [repeat]. now rewrite app_nil_r.
Qed.

Lemma init_record_body_stores (data : slice byte) (i n : Z) (loc : Locator) :
  slice_wf data ->
  0 <= i < n -> 1028 + 8 * n <= len data -> n <= 2 ^ 29 ->
  Z.of_nat (length (indexData1 loc)) = n ->
  Z.of_nat (length (indexData2 loc)) = n ->
  Z.of_nat (length (indexData3 loc)) = n ->
  init_record_body data i loc
  = Ret (mkLocator (textData loc)
           (set_nth (indexData1 loc) (Z.to_nat i) (range_bound data i))
           (set_nth (indexData2 loc) (Z.to_nat i) (record_offset data i))
           (set_nth (indexData3 loc) (Z.to_nat i) (record_length data i))
           (index loc)).
Proof.
  intros Hwf Hi Hlen Hbig H1 H2 H3. unfold init_record_body.
  assert (Hcap : len data <= cap data) by (unfold len, cap, slice_wf in *; lia).
  rewrite (int_small (4 + 1024)), (int_small (i * 8)), (int_small (4 + 1024 + i * 8))
    by lia.
  change (4 + 1024) with 1028.
  set (off := 1028 + i * 8).
  rewrite (int_small (off + 4)), (int_small (off + 5)), (int_small (off + 6)),
    (int_small (off + 7)) by (unfold off; lia).
  rewrite reslice_in_bounds by (unfold off; lia). cbn [obind].
  replace (Z.to_nat (off + 4 - off)) with 4%nat by lia.
  rewrite BigEndian_Uint32_four
    by (rewrite length_skipn; unfold cap, off in *; lia).
  cbn [obind]. rewrite store_in_range by lia. cbn [obind].
  rewrite !at_in_bounds by (unfold off; lia). cbn [obind].
  unfold with_indexData1, with_indexData2, with_indexData3.
  cbn [textData indexData1 indexData2 indexData3 index].
  rewrite store_in_range by lia. cbn [obind].
  cbn [textData indexData1 indexData2 indexData3 index].
  rewrite store_in_range by lia. cbn [obind].
  rewrite be_word_at by (unfold off; lia). reflexivity.
Qed.

Lemma init_record_loop_stores (data : slice byte) (n : nat) (td : slice byte)
      (ix : list Z) :
  slice_wf data ->
  ((0 < n)%nat -> 1028 + 8 * Z.of_nat n <= len data) -> Z.of_nat n <= 2 ^ 29 ->
  for_upto (Z.of_nat n) (init_record_body data)
    (mkLocator td (repeat 0 n) (repeat 0 n) (repeat 0 n) ix)
  = Ret (mkLocator td (tabulate n (range_bound data)) (tabulate n (record_offset data))
           (tabulate n (record_length data)) ix).
Proof.
  intros Hwf Hlen Hbig. unfold for_upto.
  destruct (for_from_returns
              (fun j st =>
                 st = mkLocator td
                        (tabulate (Z.to_nat j) (range_bound data)
                         ++ repeat 0 (n - Z.to_nat j))
                        (tabulate (Z.to_nat j) (record_offset data)
                         ++ repeat 0 (n - Z.to_nat j))
                        (tabulate (Z.to_nat j) (record_length data)
                         ++ repeat 0 (n - Z.to_nat j)) ix)
              (init_record_body data) (Z.to_nat (Z.of_nat n)) 0
              (mkLocator td (repeat 0 n) (repeat 0 n) (repeat 0 n) ix))
    as (st & Hret & Hst); try lia.
  - intros j st Hj ->.
    rewrite (init_record_body_stores data j (Z.of_nat n)); try assumption; try lia;
      try (cbn [indexData1 indexData2 indexData3];
           rewrite length_app, tabulate_length, repeat_length; lia).
    eexists. split; [reflexivity|].
    cbn [textData indexData1 indexData2 indexData3 index].
    replace (range_bound data j) with (range_bound data (Z.of_nat (Z.to_nat j)))
      by (f_equal; lia).
    replace (record_offset data j) with (record_offset data (Z.of_nat (Z.to_nat j)))
      by (f_equal; lia).
    replace (record_length data j) with (record_length data (Z.of_nat (Z.to_nat j)))
      by (f_equal; lia).
    rewrite !fill_step by lia.
    replace (Z.to_nat (j + 1)) with (S (Z.to_nat j)) by lia. reflexivity.
  - rewrite Nat.sub_0_r. reflexivity.
  - rewrite Hret, Hst.
    replace (Z.to_nat (0 + Z.of_nat (Z.to_nat (Z.of_nat n)))) with n by lia.
    rewrite Nat.sub_diag. cbn [repeat]. now rewrite !app_nil_r.
Qed.

(** On a buffer it accepts, [init] returns the tables of [decoded], whatever
    the receiver held. *)
Lemma init_decoded (loc : Locator) (data : slice byte) :
  slice_wf data -> decodable data -> init loc data = Ret (decoded data).
Proof.
  intros Hwf (Hcap & Hlo & Hhi).
  assert (Hlc : len data <= cap data) by (unfold len, cap, slice_wf in *; lia).
  pose proof (header_textoff_range data) as Ht. unfold uint32_range in Ht.
  pose proof (textoff_quot (header_textoff data)) as (Hq1 & Hq2 & Hq3).
  unfold init, reslice_to, reslice_from.
  rewrite reslice_in_bounds by lia. cbn [obind].
  change (Z.to_nat (4 - 0)) with 4%nat. change (Z.to_nat 0) with 0%nat.
  cbn [skipn]. rewrite BigEndian_Uint32_four by (unfold cap in Hcap; lia).
  cbn [obind]. fold (header_textoff data). unfold decoded.
  set (t := header_textoff data) in *.
  rewrite (int_small (t - 1024)) by lia.
  rewrite reslice_in_bounds by lia. cbn [obind].
  rewrite make_nonneg by lia. cbn [obind].
  change (Z.to_nat 256) with 256%nat.
  rewrite init_index_loop_stores by exact Hcap. cbn [obind].
  rewrite (int_small (t - 4)), (int_small (t - 4 - 1024)),
    (int_small (t - 4 - 1024 - 1024)) by lia.
  replace (t - 4 - 1024 - 1024) with (t - 2052) by lia.
  set (q := Z.quot (t - 2052) 8) in *.
  assert (Hq : 0 <= q) by lia.
  rewrite !make_nonneg by lia. cbn [obind].
  unfold with_textData, with_index, with_indexData1, with_indexData2, with_indexData3.
  cbn [textData indexData1 indexData2 indexData3 index].
  rewrite <- (Z2Nat.id q Hq) at 1.
  rewrite init_record_loop_stores; [reflexivity|exact Hwf| |lia].
  intros Hpos. rewrite Z2Nat.id by lia. lia.
Qed.

(** ** Words as numbers *)

Lemma lor_shiftl_add (x y k : Z) :
  0 <= k -> 0 <= x < 2 ^ k -> 0 <= y -> Z.lor x (Z.shiftl y k) = x + y * 2 ^ k.
Proof.
  intros Hk Hx Hy. rewrite <- Z.shiftl_mul_pow2 by lia.
  assert (Hland : Z.land x (Z.shiftl y k) = 0).
  { apply Z.bits_inj'. intros n Hn. rewrite Z.land_spec, Z.bits_0.
    destruct (Z_lt_le_dec n k) as [Hlt|Hge].
    - rewrite (Z.shiftl_spec_low y k n) by lia. apply Bool.andb_false_r.
    - destruct (Z.eq_dec x 0) as [->|Hx0]; [now rewrite Z.bits_0|].
      rewrite (Z.bits_above_log2 x n); [reflexivity|lia|].
      assert (Z.log2 x < k) by (apply Z.log2_lt_pow2; lia). lia. }
  rewrite Z.add_nocarry_lxor by exact Hland. symmetry. now apply Z.lxor_lor.
Qed.

Lemma be_combine_sum (b0 b1 b2 b3 : byte) :
  be_combine b0 b1 b2 b3
  = byte_val b0 * 2 ^ 24 + byte_val b1 * 2 ^ 16 + byte_val b2 * 2 ^ 8 + byte_val b3.
Proof.
  pose proof (byte_val_range b0). pose proof (byte_val_range b1).
  pose proof (byte_val_range b2). pose proof (byte_val_range b3).
  unfold be_combine.
  rewrite (lor_shiftl_add (byte_val b3) (byte_val b2) 8) by lia.
  rewrite (lor_shiftl_add _ (byte_val b1) 16) by lia.
  rewrite (lor_shiftl_add _ (byte_val b0) 24) by lia.
  lia.
Qed.

Lemma le_combine_sum (b0 b1 b2 b3 : byte) :
  le_combine b0 b1 b2 b3
  = byte_val b0 + byte_val b1 * 2 ^ 8 + byte_val b2 * 2 ^ 16 + byte_val b3 * 2 ^ 24.
Proof.
  pose proof (byte_val_range b0). pose proof (byte_val_range b1).
  pose proof (byte_val_range b2). pose proof (byte_val_range b3).
  unfold le_combine.
  rewrite (lor_shiftl_add (byte_val b0) (byte_val b1) 8) by lia.
  rewrite (lor_shiftl_add _ (byte_val b2) 16) by lia.
  rewrite (lor_shiftl_add _ (byte_val b3) 24) by lia.
  lia.
Qed.

Lemma record_offset_sum (data : slice byte) (i : Z) :
  record_offset data i
  = byte_val (byte_at data (1028 + i * 8 + 4))
    + byte_val (byte_at data (1028 + i * 8 + 5)) * 2 ^ 8
    + byte_val (byte_at data (1028 + i * 8 + 6)) * 2 ^ 16.
Proof.
  unfold record_offset. cbv zeta.
  set (b4 := byte_at data (1028 + i * 8 + 4)).
  set (b5 := byte_at data (1028 + i * 8 + 5)).
  set (b6 := byte_at data (1028 + i * 8 + 6)).
  pose proof (byte_val_range b4). pose proof (byte_val_range b5).
  pose proof (byte_val_range b6).
  assert (H8 : uint32 (Z.shiftl (byte_val b5) 8) = Z.shiftl (byte_val b5) 8).
  { unfold uint32. apply Z.mod_small. apply shifted_byte_below. lia. }
  assert (H16 : uint32 (Z.shiftl (byte_val b6) 16) = Z.shiftl (byte_val b6) 16).
  { unfold uint32. apply Z.mod_small. apply shifted_byte_below. lia. }
  rewrite H8, H16.
  rewrite (lor_shiftl_add (byte_val b4) (byte_val b5) 8) by lia.
  rewrite (lor_shiftl_add _ (byte_val b6) 16) by lia.
  reflexivity.
Qed.

(** A buffer on which [init] returns is one it accepts. *)
Lemma init_returns_decodable (loc loc' : Locator) (data : slice byte) :
  slice_wf data -> init loc data = Ret loc' -> decodable data.
Proof.
  intros Hwf Hret. destruct (decodable_dec data) as [Hd|Hd]; [exact Hd|].
  destruct (init_outcome loc data Hwf) as [_ Hbad].
  destruct (Hbad Hd) as [p Hp]. congruence.
Qed.

(** X1.  [init] returns exactly on the buffers with room for the header
    ([cap >= 1028]) whose [textoff] lies between 2045 and [len + 1024], and
    what it returns does not depend on what the receiver held: the text is
    [data[textoff-1024:]], the 256 prefix entries are the little-endian words
    at [4+4i], and record [i] of the [N = (textoff-2052)/8] records is the
    big-endian word at [1028+8i], the 24-bit little-endian offset after it
    and the length byte at [1028+8i+7]. *)
Theorem init_returns_decoded (loc loc' : Locator) (data : slice byte) :
  slice_wf data ->
  (init loc data = Ret loc' <-> decodable data /\ loc' = decoded data)
  /\ (forall i, prefix_entry data i
                = byte_val (byte_at data (4 + i * 4))
                  + byte_val (byte_at data (4 + i * 4 + 1)) * 2 ^ 8
                  + byte_val (byte_at data (4 + i * 4 + 2)) * 2 ^ 16
                  + byte_val (byte_at data (4 + i * 4 + 3)) * 2 ^ 24)
  /\ (forall i, range_bound data i
                = byte_val (byte_at data (1028 + i * 8)) * 2 ^ 24
                  + byte_val (byte_at data (1028 + i * 8 + 1)) * 2 ^ 16
                  + byte_val (byte_at data (1028 + i * 8 + 2)) * 2 ^ 8
                  + byte_val (byte_at data (1028 + i * 8 + 3)))
  /\ (forall i, record_offset data i
                = byte_val (byte_at data (1028 + i * 8 + 4))
                  + byte_val (byte_at data (1028 + i * 8 + 5)) * 2 ^ 8
                  + byte_val (byte_at data (1028 + i * 8 + 6)) * 2 ^ 16).
Proof.
  intros Hwf. split; [|split; [|split]].
  - split.
    + intros Hret. pose proof (init_returns_decodable loc loc' data Hwf Hret) as Hd.
      split; [exact Hd|]. rewrite (init_decoded loc data Hwf Hd) in Hret. congruence.
    + intros [Hd ->]. now apply init_decoded.
  - intros i. unfold prefix_entry. cbv zeta. apply le_combine_sum.
  - intros i. unfold range_bound. cbv zeta. apply be_combine_sum.
  - intros i. apply record_offset_sum.
Qed.

Lemma init_returns_decoded_witness :
  init zero_Locator (slice_of sample_db) = Ret sample_Locator
  <-> decodable (slice_of sample_db) /\ sample_Locator = decoded (slice_of sample_db).
Proof.
  apply (init_returns_decoded zero_Locator sample_Locator (slice_of sample_db)).
  unfold slice_wf, slice_of. simpl. lia.
Defined.

(** X2.  In every Locator [init] returns the prefix index has 256 entries,
    the three record arrays have the same length [N = (textoff-2052)/8],
    fewer than [2^29]; when there are records they end where the text begins
    or before, and the text begins within the buffer; the prefix entries and
    range bounds are [uint32] values, every record offset is below [2^24]
    and every record length below 256. *)
Theorem init_tables_bounded (loc loc' : Locator) (data : slice byte) :
  slice_wf data -> init loc data = Ret loc' ->
  let N := Z.of_nat (length (indexData1 loc')) in
  Locator_wf loc'
  /\ N = Z.quot (header_textoff data - 2052) 8
  /\ (0 < N -> 1028 + 8 * N <= header_textoff data - 1024 <= len data)
  /\ len (textData loc') = len data - (header_textoff data - 1024)
  /\ Forall (fun v => 0 <= v < 2 ^ 24) (indexData2 loc')
  /\ Forall (fun v => 0 <= v < 256) (indexData3 loc').
Proof.
  intros Hwf Hret N.
  pose proof (init_returns_decodable loc loc' data Hwf Hret) as Hd.
  destruct (init_outcome loc data Hwf) as [Hok _].
  destruct (Hok Hd) as (l & Hl & Hlwf & HN & Htext).
  rewrite Hret in Hl. injection Hl as <-.
  pose proof (textoff_quot (header_textoff data)) as (Hq1 & Hq2 & Hq3).
  destruct Hd as (Hcap & Hlo & Hhi).
  assert (Hdec : loc' = decoded data).
  { rewrite (init_decoded loc data Hwf (conj Hcap (conj Hlo Hhi))) in Hret. congruence. }
  split; [exact Hlwf|]. split; [exact HN|].
  pose proof (Z.quot_rem' (header_textoff data - 2052) 8) as Eq.
  pose proof (Z.rem_bound_pos (header_textoff data - 2052) 8) as Hr1.
  pose proof (Z.rem_bound_pos_neg (header_textoff data - 2052) 8) as Hr2.
  unfold N in *.
  split; [lia|].
  split.
  { rewrite Htext. unfold len. cbn [slen]. unfold len, slice_wf in *. lia. }
  rewrite Hdec. unfold decoded. cbn [indexData2 indexData3]. split.
  - apply Forall_tabulate. intros i _. rewrite record_offset_sum.
    pose proof (byte_val_range (byte_at data (1028 + i * 8 + 4))).
    pose proof (byte_val_range (byte_at data (1028 + i * 8 + 5))).
    pose proof (byte_val_range (byte_at data (1028 + i * 8 + 6))). lia.
  - apply Forall_tabulate. intros i _. apply byte_val_range.
Qed.

Lemma init_tables_bounded_witness :
  Locator_wf sample_Locator
  /\ Forall (fun v => 0 <= v < 2 ^ 24) (indexData2 sample_Locator)
  /\ Forall (fun v => 0 <= v < 256) (indexData3 sample_Locator).
Proof.
  destruct (init_tables_bounded zero_Locator sample_Locator (slice_of sample_db))
    as (Hwf & _ & _ & _ & H2 & H3).
  - unfold slice_wf, slice_of. simpl. lia.
  - vm_compute. reflexivity.
  - split; [exact Hwf|split; [exact H2|exact H3]].
Defined.

(** ** The search, whatever the bounds hold *)

(** On a valid sub-range the loop ends inside it, sorted bounds or not. *)
Lemma findIndexOffset_loop_stays (loc : Locator) (ip : Z) :
  Z.of_nat (length (indexData1 loc)) <= 2 ^ 62 ->
  forall (fuel : nat) (start end_ : Z),
    0 <= start <= end_ -> end_ < Z.of_nat (length (indexData1 loc)) ->
    (Z.to_nat (end_ - start) <= fuel)%nat ->
    exists m,
      findIndexOffset_loop fuel loc ip start end_ = Some (Ret (m, m))
      /\ start <= m <= end_.
Proof.
  intros HN. induction fuel as [|fuel IH]; intros start end_ Hse He Hfuel.
  - assert (start = end_) as -> by lia.
    exists end_. simpl. rewrite Z.ltb_irrefl. split; [reflexivity|lia].
  - cbn [findIndexOffset_loop].
    destruct (start <? end_) eqn:Hlt.
    + apply Z.ltb_lt in Hlt.
      destruct (midpoint start end_) as [-> Hmid]; try lia.
      rewrite idx_elt by lia.
      destruct (ip >? elt (indexData1 loc) ((start + end_) / 2)).
      * rewrite int_small by lia.
        destruct (IH ((start + end_) / 2 + 1) end_) as (m & Hm & Hr); try lia.
        exists m. split; [exact Hm|lia].
      * destruct (IH start ((start + end_) / 2)) as (m & Hm & Hr); try lia.
        exists m. split; [exact Hm|lia].
    + apply Z.ltb_ge in Hlt. assert (start = end_) as -> by lia.
      exists end_. split; [reflexivity|lia].
Qed.

(** X3.  On a valid sub-range [0 <= start <= end < N] the binary search
    needs no more than [end - start] iterations and returns an index of the
    sub-range, whether the bounds are sorted or not: it neither panics nor
    leaves the sub-range. *)
Theorem findIndexOffset_in_range (loc : Locator) (ip start end_ : Z) (fuel : nat) :
  Z.of_nat (length (indexData1 loc)) <= 2 ^ 62 ->
  0 <= start <= end_ -> end_ < Z.of_nat (length (indexData1 loc)) ->
  (Z.to_nat (end_ - start) <= fuel)%nat ->
  exists i, findIndexOffset fuel loc ip start end_ = Some (Ret i) /\ start <= i <= end_.
Proof.
  intros HN Hse He Hfuel.
  destruct (findIndexOffset_loop_stays loc ip HN fuel start end_ Hse He Hfuel)
    as (m & Hloop & Hm).
  exists m. split; [|exact Hm].
  rewrite (findIndexOffset_tie_break fuel loc ip start end_ m m Hloop) by lia.
  now destruct (elt (indexData1 loc) m >=? ip).
Qed.

Lemma findIndexOffset_in_range_witness :
  exists i,
    findIndexOffset 2 (mkLocator nil_slice [30; 10; 20] [] [] []) 15 0 2 = Some (Ret i)
    /\ 0 <= i <= 2.
Proof.
  apply (findIndexOffset_in_range (mkLocator nil_slice [30; 10; 20] [] [] []) 15 0 2 2);
    simpl; lia.
Defined.

(** The loop leaves, by a result or by a panic, within [end - start]
    iterations whenever [start] is not negative. *)
Lemma findIndexOffset_loop_leaves (loc : Locator) (ip : Z) :
  forall (fuel : nat) (start end_ : Z),
    0 <= start -> end_ < 2 ^ 62 ->
    (Z.to_nat (end_ - start) <= fuel)%nat ->
    findIndexOffset_loop fuel loc ip start end_ <> None.
Proof.
  induction fuel as [|fuel IH]; intros start end_ H0 He Hfuel.
  - simpl. destruct (start <? end_) eqn:Hlt; [|discriminate].
    apply Z.ltb_lt in Hlt. lia.
  - cbn [findIndexOffset_loop].
    destruct (start <? end_) eqn:Hlt; [|discriminate].
    apply Z.ltb_lt in Hlt.
    destruct (midpoint start end_) as [-> Hmid]; try lia.
    destruct (idx (indexData1 loc) ((start + end_) / 2)) as [v|p]; [|discriminate].
    destruct (ip >? v).
    + rewrite int_small by lia. apply IH; lia.
    + apply IH; lia.
Qed.

(** The bounds of the search, for a Locator of the decoder's shape. *)
Lemma search_bounds_value (loc : Locator) (ip : Z) :
  Locator_wf loc -> 0 <= ip < 2 ^ 32 ->
  search_bounds loc ip
  = Ret (elt (index loc) (Z.shiftr ip 24),
         if Z.shiftr ip 24 =? 255 then Z.of_nat (length (indexData1 loc)) - 1
         else elt (index loc) (Z.shiftr ip 24 + 1)).
Proof.
  intros (Hlen & _ & _ & _ & _ & HN & _) Hip.
  pose proof (top_octet ip Hip) as Hb.
  unfold search_bounds.
  rewrite (int_small (Z.of_nat (length (indexData1 loc)) - 1)) by lia.
  destruct (Z.shiftr ip 24 =? 255) eqn:E; cbn [negb obind].
  - rewrite idx_elt by (rewrite Hlen; lia). reflexivity.
  - apply Z.eqb_neq in E.
    assert (Hu : uint32 (Z.shiftr ip 24 + 1) = Z.shiftr ip 24 + 1)
      by (unfold uint32; apply Z.mod_small; lia).
    rewrite Hu, idx_elt by (rewrite Hlen; lia). cbn [obind].
    rewrite idx_elt by (rewrite Hlen; lia). reflexivity.
Qed.

Lemma index_entry_range (loc : Locator) (b : Z) :
  Locator_wf loc -> 0 <= b <= 255 -> 0 <= elt (index loc) b < 2 ^ 32.
Proof.
  intros (Hlen & Hix & _) Hb. rewrite Forall_forall in Hix.
  apply (Hix (elt (index loc) b)). unfold elt. apply nth_In. rewrite Hlen. lia.
Qed.

(** X4.  On a Locator of the shape [init] builds, a lookup of any [uint32]
    address comes to an end: with fuel for [end - start] iterations of the
    search, where [start] and [end] are the bounds the prefix index gives,
    [FindByUint] returns a record or panics; it never loops for ever,
    whatever the file holds. *)
Theorem FindByUint_terminates (loc : Locator) (ip : Z) (fuel : nat) :
  Locator_wf loc -> 0 <= ip < 2 ^ 32 ->
  exists start end_,
    search_bounds loc ip = Ret (start, end_)
    /\ 0 <= start < 2 ^ 32 /\ -1 <= end_ < 2 ^ 32
    /\ ((Z.to_nat (end_ - start) <= fuel)%nat ->
        Locator_FindByUint fuel (Some loc) ip <> None).
Proof.
  intros Hwf Hip.
  pose proof (top_octet ip Hip) as Hb.
  pose proof (search_bounds_value loc ip Hwf Hip) as Hsb.
  pose proof (index_entry_range loc (Z.shiftr ip 24) Hwf Hb) as Hs.
  assert (He : -1 <= (if Z.shiftr ip 24 =? 255
                      then Z.of_nat (length (indexData1 loc)) - 1
                      else elt (index loc) (Z.shiftr ip 24 + 1)) < 2 ^ 32).
  { destruct (Z.shiftr ip 24 =? 255) eqn:E.
    - destruct Hwf as (_ & _ & _ & _ & _ & HN & _). lia.
    - apply Z.eqb_neq in E.
      pose proof (index_entry_range loc (Z.shiftr ip 24 + 1) Hwf ltac:(lia)). lia. }
  eexists _, _. split; [exact Hsb|]. split; [exact Hs|]. split; [exact He|].
  intros Hfuel. unfold Locator_FindByUint. rewrite Hsb.
  match goal with |- context [findIndexOffset fuel loc ip ?s ?e] =>
    pose proof (findIndexOffset_loop_leaves loc ip fuel s e ltac:(lia) ltac:(lia) Hfuel)
      as Hleave;
    unfold findIndexOffset;
    destruct (findIndexOffset_loop fuel loc ip s e) as [[[s' e']|p]|]
  end; [discriminate|discriminate|congruence].
Qed.

Lemma FindByUint_terminates_witness :
  exists start end_,
    search_bounds sample_Locator (2 ^ 24 + 256) = Ret (start, end_)
    /\ 0 <= start < 2 ^ 32 /\ -1 <= end_ < 2 ^ 32
    /\ ((Z.to_nat (end_ - start) <= 2)%nat ->
        Locator_FindByUint 2 (Some sample_Locator) (2 ^ 24 + 256) <> None).
Proof.
  apply (FindByUint_terminates sample_Locator (2 ^ 24 + 256) 2).
  - exact sample_Locator_wf.
  - lia.
Defined.

(** X5.  On sorted bounds an address that lies above the bound before index
    [i] (or has [i] at the start of the sub-range) and at or below the bound
    at [i] is found at [i]: the bounds are the last addresses of their
    ranges. *)
Theorem findIndexOffset_finds_range (loc : Locator) (ip start end_ i : Z) (fuel : nat) :
  is_sorted (indexData1 loc) = true ->
  Z.of_nat (length (indexData1 loc)) <= 2 ^ 62 ->
  0 <= start <= i -> i <= end_ -> end_ < Z.of_nat (length (indexData1 loc)) ->
  (Z.to_nat (end_ - start) <= fuel)%nat ->
  (start < i -> elt (indexData1 loc) (i - 1) < ip) ->
  ip <= elt (indexData1 loc) i ->
  findIndexOffset fuel loc ip start end_ = Some (Ret i).
Proof.
  intros Hs HN Hsi Hie He Hfuel Hprev Hat.
  destruct (findIndexOffset_loop_converges loc ip Hs HN fuel start end_
              ltac:(lia) He Hfuel) as (m & Hloop & (Hm & Hbelow & Hup)).
  rewrite (findIndexOffset_tie_break fuel loc ip start end_ m m Hloop) by lia.
  assert (m = i) as ->.
  { destruct (Z_lt_le_dec m i) as [Hlt|Hge].
    - pose proof (Hup ltac:(lia)) as Hm_ge.
      pose proof (is_sorted_elt (indexData1 loc) m (i - 1) Hs ltac:(lia) ltac:(lia)).
      specialize (Hprev ltac:(lia)). lia.
    - destruct (Z.eq_dec m i) as [E|Hne]; [exact E|].
      specialize (Hbelow i ltac:(lia)). lia. }
  now destruct (elt (indexData1 loc) i >=? ip).
Qed.

Lemma findIndexOffset_finds_range_witness :
  findIndexOffset 2 sample_Locator (2 ^ 24 + 300) 0 2 = Some (Ret 1).
Proof.
  apply (findIndexOffset_finds_range sample_Locator (2 ^ 24 + 300) 0 2 1 2).
  - reflexivity.
  - simpl. lia.
  - lia.
  - lia.
  - simpl. lia.
  - simpl. lia.
  - intros _. vm_compute. reflexivity.
  - vm_compute. discriminate.
Defined.

(** ** The lookup, end to end *)

Lemma Forall_elt (P : Z -> Prop) (l : list Z) (i : Z) :
  Forall P l -> 0 <= i < Z.of_nat (length l) -> P (elt l i).
Proof.
  intros Hall Hi. rewrite Forall_forall in Hall. apply Hall.
  unfold elt. apply nth_In. lia.
Qed.

(** X6.  On a Locator of the decoder's shape with sorted bounds, for an
    address whose prefix bucket [start..end] is a valid sub-range, the lookup
    picks the first record [i] of the bucket whose bound is at least the
    address (the last one when there is none) and parses the
    [indexData3[i]] bytes of text at [indexData2[i]]; when those bytes reach
    beyond the capacity of the text it panics with a slice-bounds error
    instead.  It fails in no other way before the record is parsed. *)
Theorem FindByUint_record (loc : Locator) (ip : Z) (fuel : nat) :
  Locator_wf loc -> is_sorted (indexData1 loc) = true ->
  Forall (fun v => 0 <= v < 2 ^ 24) (indexData2 loc) ->
  Forall (fun v => 0 <= v < 256) (indexData3 loc) ->
  0 <= ip < 2 ^ 32 ->
  let b := Z.shiftr ip 24 in
  let start := elt (index loc) b in
  let end_ := if b =? 255 then Z.of_nat (length (indexData1 loc)) - 1
              else elt (index loc) (b + 1) in
  start <= end_ -> end_ < Z.of_nat (length (indexData1 loc)) ->
  (Z.to_nat (end_ - start) <= fuel)%nat ->
  exists i,
    least_ge (indexData1 loc) ip start end_ i
    /\ Locator_FindByUint fuel (Some loc) ip
       = Some (if elt (indexData2 loc) i + elt (indexData3 loc) i <=? cap (textData loc)
               then newLocationInfo
                      (firstn (Z.to_nat (elt (indexData3 loc) i))
                         (skipn (Z.to_nat (elt (indexData2 loc) i))
                            (backing (textData loc))))
               else Panic SliceBoundsOutOfRange).
Proof.
  intros Hwf Hs H2 H3 Hip b start end_ Hse He Hfuel.
  pose proof (top_octet ip Hip) as Hb. fold b in Hb.
  pose proof (index_entry_range loc b Hwf Hb) as Hstart. fold start in Hstart.
  pose proof Hwf as (_ & _ & _ & Hl2 & Hl3 & HN & _).
  destruct (findIndexOffset_loop_converges loc ip Hs ltac:(lia) fuel start end_
              ltac:(lia) He Hfuel) as (m & Hloop & Hleast).
  exists m. split; [exact Hleast|].
  destruct Hleast as (Hm & _).
  unfold Locator_FindByUint.
  rewrite (search_bounds_value loc ip Hwf Hip). fold b. fold start. fold end_.
  rewrite (findIndexOffset_tie_break fuel loc ip start end_ m m Hloop) by lia.
  replace (if elt (indexData1 loc) m >=? ip then m else m) with m
    by (now destruct (elt (indexData1 loc) m >=? ip)).
  cbn [obind].
  rewrite (idx_elt (indexData2 loc) m) by lia. cbn [obind].
  rewrite (idx_elt (indexData3 loc) m) by lia. cbn [obind].
  pose proof (Forall_elt _ (indexData2 loc) m H2 ltac:(lia)) as Hoff.
  pose proof (Forall_elt _ (indexData3 loc) m H3 ltac:(lia)) as Hlen.
  cbv beta in Hoff, Hlen.
  set (off := elt (indexData2 loc) m) in *. set (n := elt (indexData3 loc) m) in *.
  rewrite (int_small (off + n)) by lia.
  destruct (off + n <=? cap (textData loc)) eqn:Hfit.
  - apply Z.leb_le in Hfit. rewrite reslice_in_bounds by lia. cbn [obind].
    unfold elems. cbn [slen backing].
    replace (Z.to_nat (off + n - off)) with (Z.to_nat n) by lia. reflexivity.
  - apply Z.leb_gt in Hfit. rewrite reslice_out_of_bounds by lia. reflexivity.
Qed.

Lemma FindByUint_record_witness :
  exists i,
    least_ge (indexData1 sample_Locator) (2 ^ 24 + 300) 0 2 i
    /\ Locator_FindByUint 2 (Some sample_Locator) (2 ^ 24 + 300)
       = Some (if elt (indexData2 sample_Locator) i + elt (indexData3 sample_Locator) i
                  <=? cap (textData sample_Locator)
               then newLocationInfo
                      (firstn (Z.to_nat (elt (indexData3 sample_Locator) i))
                         (skipn (Z.to_nat (elt (indexData2 sample_Locator) i))
                            (backing (textData sample_Locator))))
               else Panic SliceBoundsOutOfRange).
Proof.
  apply (FindByUint_record sample_Locator (2 ^ 24 + 300) 2).
  - exact sample_Locator_wf.
  - reflexivity.
  - repeat constructor; lia.
  - repeat constructor; lia.
  - lia.
  - vm_compute. discriminate.
  - vm_compute. reflexivity.
  - vm_compute. lia.
Defined.

(** ** Lookup by text *)

Lemma To4_mapped (a b c d : byte) :
  To4 (slice_of (repeat x00 10 ++ [xff; xff; a; b; c; d]))
  = Some (mkSlice [a; b; c; d] 4).
Proof. reflexivity. Qed.

(** X7.  For a text the parser reads as an IPv4 address [a.b.c.d], be it in
    the 4-byte or in the 16-byte IPv4-in-IPv6 form, [Find] is [FindByUint] of
    [a*2^24 + b*2^16 + c*2^8 + d], with a nil error next to the record; a
    panic of that lookup is a panic of [Find]. *)
Theorem Find_IPv4 (ParseIP : string -> IP) (fuel : nat) (loc : option Locator)
        (ipstr : string) (a b c d : byte) :
  ParseIP ipstr = Some (slice_of [a; b; c; d])
  \/ ParseIP ipstr = Some (slice_of (repeat x00 10 ++ [xff; xff; a; b; c; d])) ->
  Locator_Find ParseIP fuel loc ipstr
  = match Locator_FindByUint fuel loc
            (byte_val a * 2 ^ 24 + byte_val b * 2 ^ 16 + byte_val c * 2 ^ 8 + byte_val d)
    with
    | None => None
    | Some r => Some (info <- r ;; Ret (Some info, None))
    end.
Proof.
  intros [Hp|Hp]; unfold Locator_Find; rewrite Hp.
  - change (To4 (slice_of [a; b; c; d])) with (Some (slice_of [a; b; c; d])).
    cbn [bytes_of_IP]. unfold slice_of. cbn [length].
    rewrite BigEndian_Uint32_four by (simpl; lia). cbn [nth].
    now rewrite be_combine_sum.
  - rewrite To4_mapped. cbn [bytes_of_IP].
    rewrite BigEndian_Uint32_four by (simpl; lia). cbn [nth].
    now rewrite be_combine_sum.
Qed.

Lemma Find_IPv4_witness :
  Locator_Find sample_ParseIP 2 (Some sample_Locator) "1.0.0.7"
  = match Locator_FindByUint 2 (Some sample_Locator)
            (byte_val x01 * 2 ^ 24 + byte_val x00 * 2 ^ 16 + byte_val x00 * 2 ^ 8
             + byte_val x07)
    with
    | None => None
    | Some r => Some (info <- r ;; Ret (Some info, None))
    end.
Proof.
  apply (Find_IPv4 sample_ParseIP 2 (Some sample_Locator) "1.0.0.7" x01 x00 x00 x07).
  right. reflexivity.
Defined.

(** X8.  What [Find] returns is either the invalid-address error with a nil
    record, and then the parser has rejected the text, or a record with a nil
    error, and then the parser has accepted it and none of the record's four
    text fields is empty.  It returns no other error and never a nil record
    with a nil error. *)
Theorem Find_result (ParseIP : string -> IP) (fuel : nat) (loc : option Locator)
        (ipstr : string) (info : option LocationInfo) (err : option error) :
  Locator_Find ParseIP fuel loc ipstr = Some (Ret (info, err)) ->
  (info = None /\ err = Some ErrInvalidIp /\ ParseIP ipstr = None)
  \/ (exists i, info = Some i /\ err = None /\ ParseIP ipstr <> None
                /\ Country i <> "" /\ Region i <> "" /\ City i <> "" /\ Isp i <> "").
Proof.
  unfold Locator_Find. intros H.
  destruct (ParseIP ipstr) as [ip|]; [|injection H as <- <-; left; auto].
  right.
  destruct (BigEndian_Uint32 (bytes_of_IP (To4 ip))) as [u|p]; [|discriminate].
  destruct (Locator_FindByUint fuel loc u) as [[i|p]|] eqn:Hf;
    cbn [obind] in H; try discriminate.
  injection H as <- <-. exists i. split; [reflexivity|]. split; [reflexivity|].
  split; [discriminate|].
  unfold Locator_FindByUint in Hf.
  destruct loc as [l|]; [|discriminate].
  destruct (search_bounds l u) as [[s e]|p]; [|discriminate].
  destruct (findIndexOffset fuel l u s e) as [[k|p]|]; try discriminate.
  cbn [obind] in Hf.
  destruct (idx (indexData2 l) k) as [off|p]; cbn [obind] in Hf; [|discriminate].
  destruct (idx (indexData3 l) k) as [n|p]; cbn [obind] in Hf; [|discriminate].
  destruct (reslice (textData l) off (off +i n)) as [sl|p]; cbn [obind] in Hf;
    [|discriminate].
  injection Hf as Hf.
  unfold newLocationInfo in Hf.
  match type of Hf with obind ?m _ = _ => destruct m as [raw|p] end;
    cbn [obind] in Hf; [|discriminate].
  injection Hf as <-. cbn [Country Region City Isp].
  repeat split; apply or_Null_not_empty.
Qed.

Lemma Find_result_witness :
  (Some (mkLocationInfo "US" "CA" "Los Angeles" "N/A" 0 0 0 0 0) = None
   /\ @None error = Some ErrInvalidIp /\ sample_ParseIP "1.0.0.7" = None)
  \/ (exists i, Some (mkLocationInfo "US" "CA" "Los Angeles" "N/A" 0 0 0 0 0) = Some i
                /\ @None error = None /\ sample_ParseIP "1.0.0.7" <> None
                /\ Country i <> "" /\ Region i <> "" /\ City i <> "" /\ Isp i <> "").
Proof.
  apply (Find_result sample_ParseIP 2 (Some sample_Locator) "1.0.0.7").
  vm_compute. reflexivity.
Defined.

(** X9.  While [std] is nil, as it is until [Init] or [InitWithData] has
    succeeded and again after a [Reload] that could not read its file,
    [FindByUint] panics on the nil receiver for every address; [Find]
    returns the invalid-address error for a text the parser rejects and
    panics for every text it accepts. *)
Theorem lookups_without_Locator (ParseIP : string -> IP) (fuel : nat) (r : registry)
        (ipstr : string) (ip : Z) :
  std r = None ->
  FindByUint fuel r ip = Some (Panic NilPointerDereference)
  /\ (ParseIP ipstr = None ->
      Find ParseIP fuel r ipstr = Some (Ret (None, Some ErrInvalidIp)))
  /\ (ParseIP ipstr <> None ->
      exists p, Find ParseIP fuel r ipstr = Some (Panic p)).
Proof.
  intros Hstd. unfold FindByUint, Find, Locator_Find. rewrite Hstd. cbn [deref].
  split; [reflexivity|]. split.
  - intros ->. reflexivity.
  - destruct (ParseIP ipstr) as [a|]; [intros _|congruence].
    destruct (BigEndian_Uint32 (bytes_of_IP (To4 a))) as [u|p]; [|now exists p].
    cbn [Locator_FindByUint obind]. now eexists.
Qed.

Lemma lookups_without_Locator_witness :
  FindByUint 2 empty_registry (2 ^ 24 + 5) = Some (Panic NilPointerDereference)
  /\ (sample_ParseIP "1.0.0.7" = None ->
      Find sample_ParseIP 2 empty_registry "1.0.0.7"
      = Some (Ret (None, Some ErrInvalidIp)))
  /\ (sample_ParseIP "1.0.0.7" <> None ->
      exists p, Find sample_ParseIP 2 empty_registry "1.0.0.7" = Some (Panic p)).
Proof.
  apply (lookups_without_Locator sample_ParseIP 2 empty_registry "1.0.0.7" (2 ^ 24 + 5)).
  reflexivity.
Defined.

(** ** Records by their bytes *)

(** X10.  The parser returns a record exactly for the byte strings that
    hold 3, 4 or 9 tab bytes, and panics for every other one, the empty
    string included. *)
Theorem newLocationInfo_returns_iff (str : list byte) :
  (returns (newLocationInfo str)
   <-> tab_count str = 3%nat \/ tab_count str = 4%nat \/ tab_count str = 9%nat)
  /\ (panics (newLocationInfo str)
      <-> tab_count str <> 3%nat /\ tab_count str <> 4%nat /\ tab_count str <> 9%nat).
Proof.
  pose proof (bytes_Split_length str TAB) as Hlen. fold (tab_count str) in Hlen.
  pose proof (newLocationInfo_4 str) as H4. pose proof (newLocationInfo_5 str) as H5.
  pose proof (newLocationInfo_10 str) as H10.
  pose proof (newLocationInfo_other str) as Hother. cbv zeta in *.
  destruct (schema_count_cases (length (bytes_Split str TAB)))
    as [E|[E|[E|(N4 & N5 & N10)]]].
  - rewrite (H4 E). split; split; try (intros; left; lia); try (intros _; now eexists).
    + intros [p Hp]. discriminate.
    + intros (H & _). lia.
  - rewrite (H5 E). split; split; try (intros; right; left; lia);
      try (intros _; now eexists).
    + intros [p Hp]. discriminate.
    + intros (_ & H & _). lia.
  - rewrite (H10 E). split; split; try (intros; right; right; lia);
      try (intros _; now eexists).
    + intros [p Hp]. discriminate.
    + intros (_ & _ & H). lia.
  - rewrite (Hother N4 N5 N10). split; split.
    + intros [a Ha]. discriminate.
    + intros H. lia.
    + intros _. lia.
    + intros _. now eexists.
Qed.

Lemma digits_sep_free (d : list byte) :
  forallb is_digit d = true -> sep_free TAB d = true.
Proof.
  induction d as [|c d IH]; intros H; [reflexivity|].
  simpl in H. apply andb_prop in H as [Hc Hd].
  unfold sep_free. cbn [forallb]. fold (sep_free TAB d). rewrite (IH Hd).
  rewrite andb_true_r. apply negb_true_iff.
  destruct (Byte.eqb c TAB) eqn:E; [|reflexivity].
  apply Byte.byte_dec_bl in E. subst c. discriminate.
Qed.

Lemma ParseInt_numeral (d : list byte) :
  d <> [] -> forallb is_digit d = true -> decimal_value d 0 < 2 ^ 63 ->
  ParseInt (string_of_list_byte d) = (decimal_value d 0, None).
Proof.
  intros Hne Hd Hv.
  destruct (ParseInt_decimal (string_of_list_byte d)) as [H _].
  - destruct d; [congruence|discriminate].
  - now rewrite list_byte_of_string_of_list_byte.
  - rewrite list_byte_of_string_of_list_byte in H. now apply H.
Qed.

Lemma ParseUint_numeral (d : list byte) :
  d <> [] -> forallb is_digit d = true -> decimal_value d 0 <= maxUint64 ->
  ParseUint (string_of_list_byte d) = (decimal_value d 0, None).
Proof.
  intros Hne Hd Hv.
  pose proof (ParseUint_decimal (string_of_list_byte d)) as H.
  rewrite list_byte_of_string_of_list_byte in H. apply H; try assumption.
  destruct d; [congruence|discriminate].
Qed.

(** X11.  A 10-field record whose text fields hold no tab and whose fields
    4-8 are decimal numerals, the first four below [2^63] and the fifth
    below [2^64], parses to these texts (an empty one replaced by "N/A") and
    to the numbers the numerals denote; field 9 is not used. *)
Theorem newLocationInfo_specific_numerals
        (f0 f1 f2 f3 d4 d5 d6 d7 d8 f9 : list byte) :
  forallb (sep_free TAB) [f0; f1; f2; f3; f9] = true ->
  forallb (fun d => negb (length d =? 0)%nat && forallb is_digit d) [d4; d5; d6; d7; d8]
  = true ->
  decimal_value d4 0 < 2 ^ 63 -> decimal_value d5 0 < 2 ^ 63 ->
  decimal_value d6 0 < 2 ^ 63 -> decimal_value d7 0 < 2 ^ 63 ->
  decimal_value d8 0 < 2 ^ 64 ->
  newLocationInfo (bytes_Join [f0; f1; f2; f3; d4; d5; d6; d7; d8; f9] TAB)
  = Ret (mkLocationInfo (or_Null (string_of_list_byte f0))
           (or_Null (string_of_list_byte f1)) (or_Null (string_of_list_byte f2))
           (or_Null (string_of_list_byte f3))
           (decimal_value d4 0) (decimal_value d5 0) (decimal_value d6 0)
           (decimal_value d7 0) (decimal_value d8 0)).
Proof.
  intros Hf Hd V4 V5 V6 V7 V8.
  cbn [forallb] in Hf, Hd.
  repeat (apply andb_prop in Hf as [?Hf0 Hf]).
  repeat (apply andb_prop in Hd as [?Hd0 Hd]).
  repeat match goal with
         | H : negb (length ?d =? 0)%nat && forallb is_digit ?d = true |- _ =>
             let Hn := fresh "Hn" in let Hg := fresh "Hg" in
             apply andb_prop in H as [Hn Hg];
             apply negb_true_iff, Nat.eqb_neq in Hn;
             assert (d <> []) by (intros ->; simpl in Hn; congruence);
             clear Hn
         end.
  rewrite newLocationInfo_specific_record.
  - rewrite !ParseInt_numeral, ParseUint_numeral by (assumption || (unfold maxUint64; lia)).
    reflexivity.
  - cbn [forallb].
    rewrite (digits_sep_free d4), (digits_sep_free d5), (digits_sep_free d6),
      (digits_sep_free d7), (digits_sep_free d8) by assumption.
    repeat match goal with H : sep_free TAB _ = true |- _ => rewrite H; clear H end.
    reflexivity.
Qed.

Lemma newLocationInfo_specific_numerals_witness :
  newLocationInfo (tsv ["CN"; ""; "Beijing"; "ChinaNet"; "86"; "11"; "1101"; "7"; "9000"; ""])
  = Ret (mkLocationInfo "CN" "N/A" "Beijing" "ChinaNet" 86 11 1101 7 9000).
Proof.
  apply (newLocationInfo_specific_numerals
           (list_byte_of_string "CN") (list_byte_of_string "")
           (list_byte_of_string "Beijing") (list_byte_of_string "ChinaNet")
           (list_byte_of_string "86") (list_byte_of_string "11")
           (list_byte_of_string "1101") (list_byte_of_string "7")
           (list_byte_of_string "9000") (list_byte_of_string ""));
    try reflexivity; vm_compute; reflexivity.
Defined.

(** ** The registry, call by call *)

Section RegistryCalls.
Variable ReadFile : string -> slice byte * option error.

Lemma registry_eta (r : registry) :
  mkRegistry (heap r) (std r) (olddata r) (newdata r) = r.
Proof. destruct r; reflexivity. Qed.


Lemma Init_ok_installed (dataFile : string) (r : registry) :
  fst (Init ReadFile dataFile r) = Ret None ->
  std (snd (Init ReadFile dataFile r)) <> None.
Proof.
  unfold Init, mbind, get, NewLocator.
  destruct (std r) as [a|] eqn:Hstd; [intros _; cbn; congruence|].
  destruct (ReadFile dataFile) as [d [e|]]; [discriminate|].
  unfold mbind, NewLocatorWithData.
  destruct (init zero_Locator d) as [l|p]; cbn; [discriminate|discriminate].
Qed.

(** X13.  Once an [Init] has returned without error, every further [Init]
    and [InitWithData] returns at once, without an error and without reading
    or decoding anything, and leaves the registry as it is: the first
    database stays installed. *)
Theorem Init_once (f1 f2 : string) (data : slice byte) (r : registry) :
  fst (Init ReadFile f1 r) = Ret None ->
  let r1 := snd (Init ReadFile f1 r) in
  Init ReadFile f2 r1 = (Ret None, r1) /\ InitWithData data r1 = (Ret tt, r1).
Proof.
  intros Hok r1. pose proof (Init_ok_installed f1 r Hok) as Hstd. fold r1 in Hstd.
  unfold Init, InitWithData, mbind, get.
  destruct (std r1) as [a|]; [split; reflexivity|congruence].
Qed.

(** Each call only adds to the heap, and what it makes the registry point
    to is what was pointed to before or a Locator [init] has just returned. *)
Lemma registry_step_shape (r r' : registry) :
  registry_step ReadFile r r' ->
  exists tail,
    heap r' = heap r ++ tail
    /\ forall p, referenced r' p ->
         referenced r p
         \/ exists l data, tail = [l] /\ p = length (heap r)
                           /\ init zero_Locator data = Ret l.
Proof.
  unfold referenced.
  intros [dataFile r0|dataFile r0|data r0].
  - unfold Init, mbind, get, NewLocator.
    destruct (std r0) as [a|] eqn:Hstd.
    + exists []. cbn. rewrite app_nil_r, Hstd. split; [reflexivity|]. intros p H. now left.
    + destruct (ReadFile dataFile) as [d [e|]].
      * exists []. cbn. rewrite app_nil_r. split; [reflexivity|].
        intros p [H|H]; [discriminate|left; right; exact H].
      * unfold mbind, NewLocatorWithData.
        destruct (init zero_Locator d) as [l|q] eqn:Hinit; cbn.
        -- exists [l]. split; [reflexivity|].
           intros p [H|[H|H]]; injection H as <-; right; exists l, d; auto.
        -- exists [zero_Locator]. rewrite Hstd. split; [reflexivity|].
           intros p H. now left.
  - unfold Reload, mbind, get, NewLocator.
    destruct (ReadFile dataFile) as [d [e|]].
    + exists []. cbn. rewrite app_nil_r. split; [reflexivity|].
      intros p [H|[H|H]]; [discriminate|left; right; right; exact H|discriminate].
    + unfold mbind, NewLocatorWithData.
      destruct (init zero_Locator d) as [l|q] eqn:Hinit; cbn.
      * exists [l]. split; [reflexivity|].
        intros p [H|[H|H]]; [injection H as <-; right; exists l, d; auto
                            |left; right; right; exact H
                            |injection H as <-; right; exists l, d; auto].
      * exists [zero_Locator]. split; [reflexivity|]. intros p H. now left.
  - unfold InitWithData, mbind, get.
    destruct (std r0) as [a|] eqn:Hstd.
    + exists []. cbn. rewrite app_nil_r, Hstd. split; [reflexivity|].
      intros p H. now left.
    + unfold NewLocatorWithData.
      destruct (init zero_Locator data) as [l|q] eqn:Hinit; cbn.
      * exists [l]. split; [reflexivity|].
        intros p [H|[H|H]]; [injection H as <-; right; exists l, data; auto
                            |left; right; left; exact H
                            |left; right; right; exact H].
      * exists [zero_Locator]. rewrite Hstd. split; [reflexivity|].
        intros p H. now left.
Qed.

(** X14.  Whatever sequence of [Init], [InitWithData] and [Reload] calls
    the process has made, with whatever files and buffers, each of [std],
    [olddata] and [newdata] is nil or points to a Locator that [init] has
    built to the end: a lookup never meets a Locator left half-filled by a
    decoding panic. *)
Theorem reachable_Locators_decoded (r : registry) (p : nat) :
  reachable ReadFile r -> referenced r p ->
  exists l data, nth_error (heap r) p = Some l /\ init zero_Locator data = Ret l.
Proof.
  intros Hr. revert p. induction Hr as [|r r' Hr IH Hstep]; intros p Hp.
  - destruct Hp as [H|[H|H]]; discriminate.
  - destruct (registry_step_shape r r' Hstep) as (tail & Hheap & Hrefs).
    destruct (Hrefs p Hp) as [Hold|(l & data & -> & -> & Hinit)].
    + destruct (IH p Hold) as (l & data & Hnth & Hinit).
      exists l, data. split; [|exact Hinit].
      rewrite Hheap. rewrite nth_error_app1; [exact Hnth|].
      apply nth_error_Some. congruence.
    + exists l, data. split; [|exact Hinit].
      rewrite Hheap, nth_error_app2, Nat.sub_diag by lia. reflexivity.
Qed.

(** X15.  In every registry the process can be in, a Locator the registry
    points to is the active one ([std]) or the one kept in [olddata]:
    [newdata] never holds a third. *)
Theorem reachable_active_or_old (r : registry) (p : nat) :
  reachable ReadFile r -> referenced r p -> std r = Some p \/ olddata r = Some p.
Proof.
  intros Hr Hp. destruct (reachable_slots ReadFile r Hr) as [[E|E] _];
    destruct Hp as [H|[H|H]]; auto; [left|]; congruence.
Qed.

(** X16.  No call of [Init], [InitWithData] or [Reload] changes a Locator
    that exists: a lookup through a pointer taken before the call gives
    after it what it gave before, so a lookup in flight during a [Reload] is
    answered from the Locator it started with. *)
Theorem registry_step_keeps_Locators (r r' : registry) (p : nat) (l : Locator) :
  registry_step ReadFile r r' -> nth_error (heap r) p = Some l ->
  nth_error (heap r') p = Some l
  /\ forall fuel ip,
       Locator_FindByUint fuel (nth_error (heap r') p) ip
       = Locator_FindByUint fuel (nth_error (heap r) p) ip.
Proof.
  intros Hstep Hnth.
  destruct (registry_step_shape r r' Hstep) as (tail & Hheap & _).
  assert (E : nth_error (heap r') p = Some l).
  { rewrite Hheap, nth_error_app1; [exact Hnth|]. apply nth_error_Some. congruence. }
  split; [exact E|]. intros fuel ip. now rewrite E, Hnth.
Qed.

(** X17.  A [Reload] of a file that can be read and that [init] accepts
    returns no error, makes [std] and [newdata] point to a new Locator with
    the tables of that file and moves what [newdata] held to [olddata]; from
    then on the package-level lookups are answered from the new tables,
    whatever was installed before. *)
Theorem Reload_installs_decoded (dataFile : string) (r : registry) (data : slice byte) :
  ReadFile dataFile = (data, None) -> slice_wf data -> decodable data ->
  Reload ReadFile dataFile r
  = (Ret None,
     mkRegistry (heap r ++ [decoded data]) (Some (length (heap r))) (newdata r)
       (Some (length (heap r))))
  /\ forall fuel ip,
       FindByUint fuel (snd (Reload ReadFile dataFile r)) ip
       = Locator_FindByUint fuel (Some (decoded data)) ip.
Proof.
  intros Hread Hwf Hd.
  pose proof (Reload_success ReadFile dataFile r data (decoded data) Hread
                (init_decoded zero_Locator data Hwf Hd)) as E.
  split; [exact E|]. intros fuel ip. rewrite E. unfold FindByUint.
  cbn [snd std heap deref].
  rewrite nth_error_app2, Nat.sub_diag by lia. reflexivity.
Qed.
End RegistryCalls.


Lemma Init_once_witness :
  let r1 := snd (Init sample_ReadFile "ip.dat" empty_registry) in
  Init sample_ReadFile "truncated.dat" r1 = (Ret None, r1)
  /\ InitWithData (slice_of []) r1 = (Ret tt, r1).
Proof.
  apply (Init_once sample_ReadFile "ip.dat" "truncated.dat" (slice_of []) empty_registry).
  vm_compute. reflexivity.
Defined.

Lemma reachable_Locators_decoded_witness :
  exists l data,
    nth_error (heap (snd (Init sample_ReadFile "ip.dat" empty_registry))) 0 = Some l
    /\ init zero_Locator data = Ret l.
Proof.
  apply (reachable_Locators_decoded sample_ReadFile
           (snd (Init sample_ReadFile "ip.dat" empty_registry)) 0).
  - apply (reachable_step sample_ReadFile empty_registry).
    + apply reachable_start.
    + apply step_Init.
  - left. vm_compute. reflexivity.
Defined.

Lemma reachable_active_or_old_witness :
  let r2 := snd (Reload sample_ReadFile "empty.dat"
                   (snd (Init sample_ReadFile "ip.dat" empty_registry))) in
  std r2 = Some 1%nat \/ olddata r2 = Some 1%nat.
Proof.
  apply (reachable_active_or_old sample_ReadFile
           (snd (Reload sample_ReadFile "empty.dat"
                   (snd (Init sample_ReadFile "ip.dat" empty_registry)))) 1).
  - eapply reachable_step; [eapply reachable_step; [apply reachable_start|]|].
    + apply step_Init.
    + apply step_Reload.
  - right. right. vm_compute. reflexivity.
Defined.

Lemma registry_step_keeps_Locators_witness :
  let r1 := snd (Init sample_ReadFile "ip.dat" empty_registry) in
  let r2 := snd (Reload sample_ReadFile "empty.dat" r1) in
  nth_error (heap r2) 0 = Some sample_Locator
  /\ forall fuel ip,
       Locator_FindByUint fuel (nth_error (heap r2) 0) ip
       = Locator_FindByUint fuel (nth_error (heap r1) 0) ip.
Proof.
  apply (registry_step_keeps_Locators sample_ReadFile
           (snd (Init sample_ReadFile "ip.dat" empty_registry))
           (snd (Reload sample_ReadFile "empty.dat"
                   (snd (Init sample_ReadFile "ip.dat" empty_registry))))
           0 sample_Locator).
  - apply step_Reload.
  - vm_compute. reflexivity.
Defined.

Lemma Reload_installs_decoded_witness :
  Reload sample_ReadFile "ip.dat" empty_registry
  = (Ret None,
     mkRegistry ([] ++ [decoded (slice_of sample_db)]) (Some 0%nat) None (Some 0%nat))
  /\ forall fuel ip,
       FindByUint fuel (snd (Reload sample_ReadFile "ip.dat" empty_registry)) ip
       = Locator_FindByUint fuel (Some (decoded (slice_of sample_db))) ip.
Proof.
  apply (Reload_installs_decoded sample_ReadFile "ip.dat" empty_registry
           (slice_of sample_db)).
  - reflexivity.
  - unfold slice_wf, slice_of. simpl. lia.
  - exact sample_db_decodable.
Defined.
